(** * Diffusion on a 2D grid with a Moore neighbourhood (lab5.ipynb)

    A shallow embedding of the two functions of the notebook that carry its
    numeric core, [get_neighbors] and [simulate_diffusion], and the
    properties of them that the specification states.

    Conventions of the embedding.
    - Python integers are [Z]; [range(n)] is [seqZ 0 n].
    - A two-dimensional numpy array is the list of its rows.  Reading and
      writing [u[i, j]] follow numpy: an index [k] of an axis of length [d]
      is valid when [-d <= k < d], a negative one counts from the end, any
      other raises [IndexError], which is [None] here.  [np.array] builds
      the array from rows of one length and raises on others.
    - The loops are left folds over the lists they iterate on, in the option
      monad where the body can raise.
    - The stepper is embedded twice, on the same control flow.  The first
      embedding takes the entries and [K] as exact rationals ([Qc],
      canonical fractions with Leibniz equality).  It carries the statements
      on the structure of the computation: which cells are read and
      written, in which order, what raises, the shape and the length of the
      history, and the algebra of the update rule.  The second, module
      [F64], takes them as binary64 numbers, the [float64] of numpy and the
      [float] of Python, with the operations of IEEE 754 as [SpecFloat]
      defines them: every operation rounds to nearest, ties to even,
      overflows to an infinity, and gives NaN for a zero times an infinity.
      It carries the statements on the values the program computes: their
      signs, the equality of grids, the sums of their entries.
    - The entries of [u0] are floats, as the docstring of
      [simulate_diffusion] requires, so that the array has the dtype
      [float64] and an assignment to an entry stores the value as it is. *)

From Stdlib Require Import ZArith QArith Qcanon.
From Stdlib Require Import Floats.SpecFloat.
From stdpp Require Import base numbers list sorting.

Local Open Scope Z_scope.

(** ** The neighbourhood resolver *)

Definition offsets : list Z := [-1; 0; 1].

(** [get_neighbors(i, j, M, N)], notebook lines 34-66. *)
Definition get_neighbors (i j M N : Z) : list (Z * Z) :=
  foldl (λ neighbors di,
    foldl (λ neighbors dj,
      if bool_decide (di = 0 ∧ dj = 0) then neighbors
      else
        let ni := i + di in
        let nj := j + dj in
        if bool_decide ((0 ≤ ni < M) ∧ (0 ≤ nj < N))
        then neighbors ++ [(ni, nj)]
        else neighbors)
      neighbors offsets)
    [] offsets.

(** Position of a cell in the grid, for the statement of the neighbour
    counts: a cell is on a border row when it is in the first or the last
    row, on a border column likewise.  A corner is on both, an edge cell on
    exactly one, an interior cell on none. *)
Definition border_row (i M : Z) : Prop := i = 0 ∨ i = M - 1.
Definition border_col (j N : Z) : Prop := j = 0 ∨ j = N - 1.

Definition corner (i j M N : Z) : Prop := border_row i M ∧ border_col j N.
Definition edge (i j M N : Z) : Prop :=
  (border_row i M ∨ border_col j N) ∧ ¬ corner i j M N.
Definition interior (i j M N : Z) : Prop :=
  ¬ border_row i M ∧ ¬ border_col j N.

(** Lexicographic order on coordinates, row first. *)
Definition lex_lt (p q : Z * Z) : Prop :=
  p.1 < q.1 ∨ (p.1 = q.1 ∧ p.2 < q.2).

(** The eight candidate coordinates, in the order the two loops visit them. *)
Definition candidates (i j : Z) : list (Z * Z) :=
  [(i + -1, j + -1); (i + -1, j + 0); (i + -1, j + 1);
   (i + 0, j + -1); (i + 0, j + 1);
   (i + 1, j + -1); (i + 1, j + 0); (i + 1, j + 1)].

Definition in_bounds (M N : Z) (p : Z * Z) : Prop :=
  (0 ≤ p.1 < M) ∧ (0 ≤ p.2 < N).

Global Instance in_bounds_dec M N p : Decision (in_bounds M N p).
Proof. unfold in_bounds. apply _. Defined.

(** ** The diffusion stepper, in exact arithmetic *)

(** Left fold of a body that can raise. *)
Fixpoint foldlM {A B} (f : A → B → option A) (a : A) (l : list B) : option A :=
  match l with
  | [] => Some a
  | x :: l => a' ← f a x; foldlM f a' l
  end.

Abbreviation grid := (list (list Qc)).

(** numpy's resolution of an index [k] along an axis of length [d]. *)
Definition np_index (d : nat) (k : Z) : option nat :=
  if bool_decide (0 ≤ k < Z.of_nat d) then Some (Z.to_nat k)
  else if bool_decide (- Z.of_nat d ≤ k < 0) then Some (Z.to_nat (k + Z.of_nat d))
  else None.

(** [u[i, j]] as an expression. *)
Definition getitem (u : grid) (p : Z * Z) : option Qc :=
  r ← np_index (length u) p.1;
  row ← u !! r;
  c ← np_index (length row) p.2;
  row !! c.

(** [u[i, j] = v] as a statement. *)
Definition setitem (u : grid) (p : Z * Z) (v : Qc) : option grid :=
  r ← np_index (length u) p.1;
  row ← u !! r;
  c ← np_index (length row) p.2;
  Some (<[r := <[c := v]> row]> u).

(** [sum(u[ni, nj] for ni, nj in neighbors)], line 108: Python's [sum] adds
    from 0, left to right. *)
Definition diffusion_sum (u : grid) (neighbors : list (Z * Z)) : option Qc :=
  foldlM (λ acc p, x ← getitem u p; Some (acc + x)%Qc) 0%Qc neighbors.

(** One pass of the body of the time loop, lines 104-110: [u_new] starts as a
    copy of [u], every cell of the [M] x [N] block is overwritten in row-major
    order, every read is from [u]. *)
Definition diffusion_step (M N : Z) (K : Qc) (u : grid) : option grid :=
  foldlM (λ u_new i,
    foldlM (λ u_new j,
      let neighbors := get_neighbors i j M N in
      s ← diffusion_sum u neighbors;
      x ← getitem u (i, j);
      setitem u_new (i, j) ((1 - K) * x + (K / Qc_of_Z 8) * s)%Qc)
      u_new (seqZ 0 N))
    u (seqZ 0 M).

(** [np.array(u0)], line 100, on a list of rows of floats: the array that
    has those rows.  Rows of different lengths raise [ValueError] (numpy
    1.24 and later), which is [None] here. *)
Definition np_array {A} (u0 : list (list A)) : option (list (list A)) :=
  let n := length (default [] (head u0)) in
  if bool_decide (Forall (λ row, length row = n) u0) then Some u0 else None.

(** [simulate_diffusion(M, N, T, u0, K)], lines 75-113.  The state of the time
    loop is the current grid and the history; the copies are the identity on
    values. *)
Definition simulate_diffusion (M N T : Z) (u0 : grid) (K : Qc)
    : option (list grid) :=
  u ← np_array u0;
  let history := [u] in
  snd <$> foldlM (λ '(u, history) _,
            u_new ← diffusion_step M N K u;
            Some (u_new, history ++ [u_new]))
          (u, history) (seqZ 0 T).

(** ** Vocabulary of the statements *)

(** A grid of [m] rows of [n] entries each. *)
Definition has_shape (m n : nat) (u : grid) : Prop :=
  length u = m ∧ Forall (λ row, length row = n) u.

Definition nonneg (u : grid) : Prop :=
  Forall (Forall (λ x, 0 ≤ x)%Qc) u.

Fixpoint sumQc (l : list Qc) : Qc :=
  match l with
  | [] => 0
  | x :: l => x + sumQc l
  end%Qc.

(** Sum over all entries, row by row. *)
Definition grid_sum (u : grid) : Qc := sumQc (sumQc <$> u).

(** The entry at a coordinate, 0 where there is none. *)
Definition cell (u : grid) (p : Z * Z) : Qc := default 0%Qc (getitem u p).


(** The update rule of the specification at one cell of the previous grid. *)
Definition new_value (M N : Z) (K : Qc) (u : grid) (p : Z * Z) : Qc :=
  ((1 - K) * cell u p
   + (K / Qc_of_Z 8) * sumQc (cell u <$> get_neighbors p.1 p.2 M N))%Qc.


(** The entry at row [a], column [b], counted from the start. *)
Definition entry (u : grid) (a b : nat) : option Qc :=
  row ← u !! a; row !! b.

(** The [M] x [N] grid whose entry at each coordinate is given by [f]. *)
Definition grid_of (M N : Z) (f : Z * Z → Qc) : grid :=
  (λ i, (λ j, f (i, j)) <$> seqZ 0 N) <$> seqZ 0 M.

(** Two distinct cells are Moore neighbours when they are at most one row
    and one column apart. *)
Definition moore (p q : Z * Z) : Prop :=
  p ≠ q ∧ (-1 ≤ q.1 - p.1 ≤ 1) ∧ (-1 ≤ q.2 - p.2 ≤ 1).

Global Instance moore_dec p q : Decision (moore p q).
Proof. unfold moore. apply _. Defined.


(** State of [u_new] inside one step on [u]: the cells of the rows before
    [k], and those of row [k] before column [k'], hold their new value, the
    others still the value copied from [u]. *)
Definition written (m n : nat) (K : Qc) (u : grid) (k k' : nat)
    (u_new : grid) : Prop :=
  has_shape m n u_new ∧
  ∀ a b, (a < m)%nat → (b < n)%nat →
    entry u_new a b
    = if decide (a < k ∨ (a = k ∧ b < k'))%nat
      then Some (new_value (Z.of_nat m) (Z.of_nat n) K u
                   (Z.of_nat a, Z.of_nat b))
      else entry u a b.

(** State of the time loop of [simulate_diffusion] after [k] iterations from
    [u0]: the history has [k + 1] snapshots, starts with [u0], ends with the
    current grid, and each snapshot after the first is one step from the
    snapshot before it. *)
Definition time_loop_inv (m n : nat) (K : Qc) (u0 : grid) (k : nat)
    (st : grid * list grid) : Prop :=
  has_shape m n st.1
  ∧ length st.2 = S k
  ∧ st.2 !! k = Some st.1
  ∧ st.2 !! 0%nat = Some u0
  ∧ ∀ t, (t < k)%nat →
      ∃ u u', st.2 !! t = Some u ∧ st.2 !! S t = Some u'
        ∧ has_shape m n u
        ∧ diffusion_step (Z.of_nat m) (Z.of_nat n) K u = Some u'.

(** The rational 0.125. *)
Definition eighth : Qc := Q2Qc (1 # 8).

(** The 3 x 3 grid with all its mass in the centre and the 2 x 2 grid with all
    its mass in a corner, the two scenarios of the specification. *)
Definition peak3 : grid := [[0; 0; 0]; [0; 1; 0]; [0; 0; 0]]%Qc.
Definition corner2 : grid := [[1; 0]; [0; 0]]%Qc.

(** State of [u_new] inside one step on an array [u] of [r] rows and [c]
    columns of which the step visits the first [m] rows and [n] columns:
    the visited cells hold their new value, all others the value copied
    from [u]. *)
Definition written_block (r c m n : nat) (K : Qc) (u : grid) (k k' : nat)
    (u_new : grid) : Prop :=
  has_shape r c u_new ∧
  ∀ a b, (a < r)%nat → (b < c)%nat →
    entry u_new a b
    = if decide (b < n ∧ (a < k ∨ (a = k ∧ b < k')))%nat
      then Some (new_value (Z.of_nat m) (Z.of_nat n) K u
                   (Z.of_nat a, Z.of_nat b))
      else entry u a b.

(** The body of the time loop of [simulate_diffusion], lines 103-111, as a
    function of the loop state and of the loop variable, which it ignores. *)
Definition time_step (M N : Z) (K : Qc)
    : grid * list grid → Z → option (grid * list grid) :=
  λ '(u, history) _,
    u_new ← diffusion_step M N K u;
    Some (u_new, history ++ [u_new]).

(** ** The stepper in binary64 arithmetic

    The same two loops with the entries and [K] in IEEE 754 binary64, the
    [float64] of numpy and the [float] of Python: every operation rounds to
    nearest, ties to even, overflows to an infinity and propagates NaN, as
    specified by [SpecFloat] (precision 53, maximal exponent 1024).  numpy
    warns on an overflow and on an invalid operation, it does not raise. *)
Module F64.

Definition prec : Z := 53.
Definition emax : Z := 1024.

(** [x + y], [x - y], [x * y] and [x / y] on floats. *)
Definition add : spec_float → spec_float → spec_float := SFadd prec emax.
Definition sub : spec_float → spec_float → spec_float := SFsub prec emax.
Definition mul : spec_float → spec_float → spec_float := SFmul prec emax.
Definition div : spec_float → spec_float → spec_float := SFdiv prec emax.

(** The integers [0], [1] and [8] of the source as floats, to which Python
    converts them, exactly, when the other operand is a float: 0.0, 1.0,
    which is 2^52 * 2^-52, and 8.0, which is 2^52 * 2^-49. *)
Definition zero : spec_float := S754_zero false.
Definition one : spec_float := S754_finite false 4503599627370496 (-52).
Definition eight : spec_float := S754_finite false 4503599627370496 (-49).

(** [u[i, j]] as an expression and as the target of an assignment. *)
Definition getitem {A} (u : list (list A)) (p : Z * Z) : option A :=
  r ← np_index (length u) p.1;
  row ← u !! r;
  c ← np_index (length row) p.2;
  row !! c.

Definition setitem {A} (u : list (list A)) (p : Z * Z) (v : A)
    : option (list (list A)) :=
  r ← np_index (length u) p.1;
  row ← u !! r;
  c ← np_index (length row) p.2;
  Some (<[r := <[c := v]> row]> u).

(** [sum(u[ni, nj] for ni, nj in neighbors)], line 108.  The entries are
    [np.float64] objects, for which Python's [sum] adds one by one from the
    left, starting from the integer 0; [0 + x] is [0.0 + x], and the 0 of
    an empty sum acts as 0.0 in the product of line 109. *)
Definition diffusion_sum (u : list (list spec_float))
    (neighbors : list (Z * Z)) : option spec_float :=
  foldlM (λ acc p, x ← getitem u p; Some (add acc x)) zero neighbors.

(** One pass of the body of the time loop, lines 104-110; line 109 is
    [(1 - K) * u[i, j] + (K / 8) * diffusion_sum], five operations, each
    rounded. *)
Definition diffusion_step (M N : Z) (K : spec_float)
    (u : list (list spec_float)) : option (list (list spec_float)) :=
  foldlM (λ u_new i,
    foldlM (λ u_new j,
      let neighbors := get_neighbors i j M N in
      s ← diffusion_sum u neighbors;
      x ← getitem u (i, j);
      setitem u_new (i, j) (add (mul (sub one K) x) (mul (div K eight) s)))
      u_new (seqZ 0 N))
    u (seqZ 0 M).

(** [simulate_diffusion(M, N, T, u0, K)], lines 100-113. *)
Definition simulate_diffusion (M N T : Z) (u0 : list (list spec_float))
    (K : spec_float) : option (list (list (list spec_float))) :=
  u ← np_array u0;
  let history := [u] in
  snd <$> foldlM (λ '(u, history) _,
            u_new ← diffusion_step M N K u;
            Some (u_new, history ++ [u_new]))
          (u, history) (seqZ 0 T).

(** *** Vocabulary of the binary64 statements *)

(** An array of [m] rows of [n] entries each. *)
Definition has_shape {A} (m n : nat) (u : list (list A)) : Prop :=
  length u = m ∧ Forall (λ row, length row = n) u.

(** The entry at row [a], column [b], counted from the start. *)
Definition entry {A} (u : list (list A)) (a b : nat) : option A :=
  row ← u !! a; row !! b.

(** The entry at a coordinate, NaN where there is none. *)
Definition cell (u : list (list spec_float)) (p : Z * Z) : spec_float :=
  default S754_nan (getitem u p).

(** Python's [sum]: from 0, left to right. *)
Definition fsum (l : list spec_float) : spec_float := foldl add zero l.

(** The sum of the neighbours of a cell, as line 108 computes it. *)
Definition neighbor_sum (M N : Z) (u : list (list spec_float)) (p : Z * Z)
    : spec_float :=
  fsum (cell u <$> get_neighbors p.1 p.2 M N).

(** The expression of line 109 at one cell of the previous grid. *)
Definition new_value (M N : Z) (K : spec_float) (u : list (list spec_float))
    (p : Z * Z) : spec_float :=
  add (mul (sub one K) (cell u p)) (mul (div K eight) (neighbor_sum M N u p)).

(** The [M] x [N] array whose entry at each coordinate is given by [f]. *)
Definition grid_of {A} (M N : Z) (f : Z * Z → A) : list (list A) :=
  (λ i, (λ j, f (i, j)) <$> seqZ 0 N) <$> seqZ 0 M.

(** Classes of binary64 values.  A value is valid when its mantissa and
    exponent are those of a binary64 number; it is finite when it is a zero
    or a finite number; non-negative when [0 <= x] holds, which a NaN never
    satisfies; not negative when [x < 0] fails, which a NaN always does. *)
Definition valid (x : spec_float) : Prop := valid_binary prec emax x = true.

Definition finite (x : spec_float) : Prop :=
  match x with S754_zero _ | S754_finite _ _ _ => True | _ => False end.

(** [x <= y] in Python. *)
Definition le (x y : spec_float) : Prop := SFleb x y = true.

Definition nonneg (x : spec_float) : Prop := le zero x.

(** A product of a zero and an infinity, the one product of non-negative
    factors that is NaN. *)
Definition zero_times_inf (x y : spec_float) : Prop :=
  match x, y with
  | S754_zero _, S754_infinity _ | S754_infinity _, S754_zero _ => True
  | _, _ => False
  end.

Definition not_negative (x : spec_float) : Prop := SFltb x zero = false.

(** One of the two products of line 109 at cell [p] is a zero times an
    infinity. *)
Definition nan_product (M N : Z) (K : spec_float)
    (u : list (list spec_float)) (p : Z * Z) : Prop :=
  zero_times_inf (sub one K) (cell u p)
  ∨ zero_times_inf (div K eight) (neighbor_sum M N u p).

(** [x == y] in Python. *)
Definition feq (x y : spec_float) : Prop := SFeqb x y = true.

Global Instance feq_dec x y : Decision (feq x y).
Proof. unfold feq. apply _. Defined.

(** The same value up to the sign of a zero. *)
Definition same (x y : spec_float) : Prop :=
  x = y ∨ ∃ s t, x = S754_zero s ∧ y = S754_zero t.

(** The rational value of a finite binary64 number, [(-1)^s * m * 2^e];
    0 for the values that have none. *)
Definition pow2 (e : Z) : Qc :=
  match e with
  | Z0 => 1%Qc
  | Zpos p => Qc_of_Z (Zpos (2 ^ p))
  | Zneg p => (/ Qc_of_Z (Zpos (2 ^ p)))%Qc
  end.

Definition real (x : spec_float) : Qc :=
  match x with
  | S754_finite s m e => (Qc_of_Z (cond_Zopp s (Zpos m)) * pow2 e)%Qc
  | _ => 0%Qc
  end.

Definition reals (u : list (list spec_float)) : grid :=
  fmap (M:=list) (fmap (M:=list) real) u.

(** Sum over all entries of the values of a grid of finite numbers. *)
Definition mass (u : list (list spec_float)) : Qc := grid_sum (reals u).

(** State of [u_new] inside one step on [u], as for the exact stepper. *)
Definition written (m n : nat) (K : spec_float) (u : list (list spec_float))
    (k k' : nat) (u_new : list (list spec_float)) : Prop :=
  has_shape m n u_new ∧
  ∀ a b, (a < m)%nat → (b < n)%nat →
    entry u_new a b
    = if decide (a < k ∨ (a = k ∧ b < k'))%nat
      then Some (new_value (Z.of_nat m) (Z.of_nat n) K u
                   (Z.of_nat a, Z.of_nat b))
      else entry u a b.

(** State of the time loop after [k] iterations from [u0]. *)
Definition time_loop_inv (m n : nat) (K : spec_float)
    (u0 : list (list spec_float)) (k : nat)
    (st : list (list spec_float) * list (list (list spec_float))) : Prop :=
  has_shape m n st.1
  ∧ length st.2 = S k
  ∧ st.2 !! k = Some st.1
  ∧ st.2 !! 0%nat = Some u0
  ∧ ∀ t, (t < k)%nat →
      ∃ u u', st.2 !! t = Some u ∧ st.2 !! S t = Some u'
        ∧ has_shape m n u
        ∧ diffusion_step (Z.of_nat m) (Z.of_nat n) K u = Some u'.

(** The floats 0.5, 0.1 and 0.2, that is, the binary64 numbers nearest to
    1/10 and to 1/5, and 2^1023; the 3 x 3 grid with 1.0 at the centre, the
    2 x 2 grid with 1.0 in a corner, and the 2 x 2 grid that holds 2^1023
    everywhere. *)
Definition half : spec_float := S754_finite false 4503599627370496 (-53).
Definition tenth : spec_float := S754_finite false 7205759403792794 (-56).
Definition fifth : spec_float := S754_finite false 7205759403792794 (-55).
Definition huge : spec_float := S754_finite false 4503599627370496 971.

Definition peak3 : list (list spec_float) :=
  [[zero; zero; zero]; [zero; one; zero]; [zero; zero; zero]].
Definition corner2 : list (list spec_float) := [[one; zero]; [zero; zero]].
Definition huge2 : list (list spec_float) := [[huge; huge]; [huge; huge]].

(** The float 0.125, and the grids that one step with [K = 1.0] makes of
    the peak and of the corner. *)
Definition eighth : spec_float := S754_finite false 4503599627370496 (-55).

Definition peak3_next : list (list spec_float) :=
  [[eighth; eighth; eighth]; [eighth; zero; eighth]; [eighth; eighth; eighth]].

End F64.

(** ** Properties of [get_neighbors] *)

(** The cells of row [i + di] that the inner loop tries, left to right. *)
Definition row_candidates (i j di : Z) : list (Z * Z) :=
  if bool_decide (di = 0)
  then [(i + di, j + -1); (i + di, j + 1)]
  else [(i + di, j + -1); (i + di, j + 0); (i + di, j + 1)].

Ltac split_guards :=
  repeat (case_bool_decide; try lia); repeat (case_decide; try lia).

Lemma inner_loop_filter (i j M N di : Z) (acc : list (Z * Z)) :
  foldl (λ neighbors dj,
      if bool_decide (di = 0 ∧ dj = 0) then neighbors
      else
        let ni := i + di in
        let nj := j + dj in
        if bool_decide ((0 ≤ ni < M) ∧ (0 ≤ nj < N))
        then neighbors ++ [(ni, nj)]
        else neighbors)
    acc offsets
  = acc ++ filter (in_bounds M N) (row_candidates i j di).
Proof.
  unfold offsets, row_candidates, in_bounds. cbn [foldl].
  destruct (decide (di = 0)) as [Hdi|Hdi];
    [rewrite (bool_decide_eq_true_2 (di = 0)) by done
    |rewrite (bool_decide_eq_false_2 (di = 0)) by done];
    rewrite !filter_cons, filter_nil; cbn [fst snd];
    split_guards; rewrite <- ?(assoc_L (++)), ?app_nil_r; reflexivity.
Qed.

Lemma get_neighbors_filter (i j M N : Z) :
  get_neighbors i j M N = filter (in_bounds M N) (candidates i j).
Proof.
  unfold get_neighbors. unfold offsets at 2. cbn [foldl].
  rewrite !inner_loop_filter, app_nil_l, <- !filter_app. reflexivity.
Qed.

Lemma StronglySorted_filter {A} (R : relation A) (P : A → Prop)
    `{!∀ x, Decision (P x)} (l : list A) :
  StronglySorted R l → StronglySorted R (filter P l).
Proof.
  induction 1 as [|x l Hl IH Hx]; [constructor|].
  rewrite filter_cons. case_decide; [|done].
  constructor; [done|].
  apply Forall_forall. intros y [_ Hy]%list_elem_of_filter.
  by eapply Forall_forall in Hx.
Qed.

Lemma candidates_sorted (i j : Z) : StronglySorted lex_lt (candidates i j).
Proof.
  unfold candidates.
  repeat (constructor; [|repeat (constructor; [unfold lex_lt; cbn; lia|]);
                          constructor]).
  constructor.
Qed.

Lemma lex_lt_irrefl (p : Z * Z) : ¬ lex_lt p p.
Proof. unfold lex_lt. lia. Qed.

Lemma StronglySorted_lex_NoDup (l : list (Z * Z)) :
  StronglySorted lex_lt l → NoDup l.
Proof.
  induction 1 as [|x l Hl IH Hx]; constructor; [|done].
  intros Hin. eapply Forall_forall in Hx; [|done].
  by apply lex_lt_irrefl in Hx.
Qed.

Lemma self_not_candidate (i j : Z) : (i, j) ∉ candidates i j.
Proof.
  unfold candidates. rewrite !not_elem_of_cons.
  repeat split; try (intros [= ? ?]; lia). apply not_elem_of_nil.
Qed.

Ltac count_candidates :=
  rewrite get_neighbors_filter; unfold candidates, in_bounds;
  rewrite !filter_cons, filter_nil; cbn [fst snd];
  repeat (case_decide; try lia); reflexivity.

(** C4. In a grid with at least two rows and two columns an in-bounds corner
    cell has exactly 3 neighbours, an edge cell that is not a corner exactly
    5 and an interior cell exactly 8; in a grid with a single row or a single
    column every cell has at most 2 neighbours, and the only cell of a 1x1
    grid has none. *)
Theorem get_neighbors_count (i j M N : Z) :
  0 ≤ i < M → 0 ≤ j < N →
  (2 ≤ M → 2 ≤ N →
     (corner i j M N → length (get_neighbors i j M N) = 3%nat)
     ∧ (edge i j M N → length (get_neighbors i j M N) = 5%nat)
     ∧ (interior i j M N → length (get_neighbors i j M N) = 8%nat))
  ∧ (M = 1 ∨ N = 1 → (length (get_neighbors i j M N) ≤ 2)%nat)
  ∧ (M = 1 → N = 1 → length (get_neighbors i j M N) = 0%nat).
Proof.
  intros Hi Hj. unfold edge, interior, corner, border_row, border_col.
  split; [intros HM HN; split; [|split]|split].
  - intros [? ?]. count_candidates.
  - intros [? ?]. count_candidates.
  - intros [? ?]. count_candidates.
  - intros ?. rewrite get_neighbors_filter. unfold candidates, in_bounds.
    rewrite !filter_cons, filter_nil. cbn [fst snd].
    repeat (case_decide; try lia); cbn [length]; lia.
  - intros -> ->. count_candidates.
Qed.

Lemma get_neighbors_count_witness :
  (0 ≤ 1 < 3) ∧ (0 ≤ 1 < 3) ∧ length (get_neighbors 1 1 3 3) = 8%nat
  ∧ length (get_neighbors 0 2 3 3) = 3%nat
  ∧ length (get_neighbors 2 1 3 3) = 5%nat
  ∧ length (get_neighbors 0 0 1 1) = 0%nat.
Proof.
  split; [lia|]. split; [lia|]. split; [|split; [|split]].
  - apply (get_neighbors_count 1 1 3 3); unfold interior, border_row, border_col; lia.
  - apply (get_neighbors_count 0 2 3 3); unfold corner, border_row, border_col; lia.
  - apply (get_neighbors_count 2 1 3 3);
      unfold edge, corner, border_row, border_col; lia.
  - apply (get_neighbors_count 0 0 1 1); lia.
Defined.

(** C9. [get_neighbors] is a total function: for all integers [i], [j], [M]
    and [N] (in range or not, and so in particular for positive [M] and
    [N]) it returns a list whose coordinates all lie in the grid, none of
    which is [(i, j)], and in which no coordinate occurs twice. *)
Theorem get_neighbors_sound (i j M N : Z) :
  (∀ ni nj, (ni, nj) ∈ get_neighbors i j M N → (0 ≤ ni < M) ∧ (0 ≤ nj < N))
  ∧ ((i, j) ∉ get_neighbors i j M N)
  ∧ NoDup (get_neighbors i j M N).
Proof.
  rewrite get_neighbors_filter. split; [|split].
  - intros ni nj [Hin _]%list_elem_of_filter. exact Hin.
  - intros [_ Hin]%list_elem_of_filter. by apply self_not_candidate in Hin.
  - apply NoDup_filter, StronglySorted_lex_NoDup, candidates_sorted.
Qed.

(** C10. The neighbours are listed in strictly increasing lexicographic
    order of (row, column): every coordinate of the result is below every
    later one.  This holds for every cell, in bounds or not. *)
Theorem get_neighbors_sorted (i j M N : Z) :
  StronglySorted lex_lt (get_neighbors i j M N).
Proof.
  rewrite get_neighbors_filter.
  apply StronglySorted_filter, candidates_sorted.
Qed.

(** ** Loops *)

Section loops.
Context {A B : Type}.
Implicit Types (f : A → B → option A) (l : list B).

(** A loop whose body keeps an invariant indexed by the number of
    iterations done never raises and ends in the invariant. *)
Lemma foldlM_invariant (I : nat → A → Prop) (Q : A → Prop) f l a :
  I 0%nat a →
  (∀ k x a, l !! k = Some x → I k a → ∃ a', f a x = Some a' ∧ I (S k) a') →
  (∀ a', I (length l) a' → Q a') →
  ∃ a', foldlM f a l = Some a' ∧ Q a'.
Proof.
  revert I a. induction l as [|x l IH]; intros I a H0 Hstep Hpost.
  { exists a. split; [done|]. by apply Hpost. }
  destruct (Hstep 0%nat x a eq_refl H0) as (a1 & Hf & H1).
  destruct (IH (λ k, I (S k)) a1 H1) as (a' & Hfold & Hend).
  { intros k y b Hk Hb. by apply (Hstep (S k)). }
  { done. }
  exists a'. cbn. by rewrite Hf.
Qed.
End loops.

(** ** Indexing *)

Lemma np_index_nat (d k : nat) :
  (k < d)%nat → np_index d (Z.of_nat k) = Some k.
Proof.
  intros Hk. unfold np_index. rewrite bool_decide_eq_true_2 by lia.
  by rewrite Nat2Z.id.
Qed.

Lemma np_index_ge (d k : nat) :
  (d ≤ k)%nat → np_index d (Z.of_nat k) = None.
Proof.
  intros Hk. unfold np_index. by rewrite !bool_decide_eq_false_2 by lia.
Qed.

Lemma getitem_nat (u : grid) (a b : nat) :
  getitem u (Z.of_nat a, Z.of_nat b) = entry u a b.
Proof.
  unfold getitem, entry. cbn [fst snd].
  destruct (decide (a < length u)%nat) as [Ha|Ha].
  - rewrite np_index_nat by done. cbn.
    destruct (u !! a) as [row|]; [cbn|done].
    destruct (decide (b < length row)%nat) as [Hb|Hb].
    + by rewrite np_index_nat.
    + rewrite np_index_ge by lia. cbn. symmetry. apply lookup_ge_None. lia.
  - rewrite np_index_ge by lia.
    rewrite (lookup_ge_None_2 u a) by lia. done.
Qed.

Lemma setitem_nat (u : grid) (a b : nat) (row : list Qc) (v : Qc) :
  u !! a = Some row → (b < length row)%nat →
  setitem u (Z.of_nat a, Z.of_nat b) v = Some (<[a := <[b := v]> row]> u).
Proof.
  intros Ha Hb. unfold setitem. cbn [fst snd].
  rewrite np_index_nat by by eapply lookup_lt_Some.
  cbn. rewrite Ha. cbn. by rewrite np_index_nat.
Qed.

Lemma entry_insert (u : grid) (a b a' b' : nat) (row : list Qc) (v : Qc) :
  u !! a = Some row → (b < length row)%nat →
  entry (<[a := <[b := v]> row]> u) a' b'
  = if decide (a' = a ∧ b' = b) then Some v else entry u a' b'.
Proof.
  intros Ha Hb. unfold entry.
  assert (a < length u)%nat by by eapply lookup_lt_Some.
  destruct (decide (a' = a)) as [->|Hne].
  - rewrite list_lookup_insert_eq by done. cbn. rewrite Ha. cbn.
    destruct (decide (b' = b)) as [->|Hneb].
    + rewrite decide_True by done. by rewrite list_lookup_insert_eq.
    + rewrite decide_False by tauto. by rewrite list_lookup_insert_ne.
  - rewrite decide_False by tauto. by rewrite list_lookup_insert_ne.
Qed.

Lemma has_shape_insert (m n : nat) (u : grid) (a b : nat) row v :
  has_shape m n u → u !! a = Some row →
  has_shape m n (<[a := <[b := v]> row]> u).
Proof.
  intros [Hm Hn] Ha. split; [by rewrite length_insert|].
  apply Forall_insert; [done|]. rewrite length_insert.
  by eapply (Forall_lookup_1 _ _ _ _ Hn).
Qed.

Lemma has_shape_entry (m n : nat) (u : grid) (a b : nat) :
  has_shape m n u → (a < m)%nat → (b < n)%nat → is_Some (entry u a b).
Proof.
  intros [Hm Hn] Ha Hb. unfold entry.
  destruct (lookup_lt_is_Some_2 u a) as [row Hrow]; [lia|].
  rewrite Hrow. cbn. apply lookup_lt_is_Some_2.
  by rewrite (Forall_lookup_1 _ _ _ _ Hn Hrow).
Qed.

Lemma has_shape_row (m n : nat) (u : grid) (a : nat) :
  has_shape m n u → (a < m)%nat → ∃ row, u !! a = Some row ∧ length row = n.
Proof.
  intros [Hm Hn] Ha.
  destruct (lookup_lt_is_Some_2 u a) as [row Hrow]; [lia|].
  exists row. split; [done|]. by apply (Forall_lookup_1 _ _ _ _ Hn Hrow).
Qed.

Lemma cell_entry (u : grid) (a b : nat) (x : Qc) :
  entry u a b = Some x → cell u (Z.of_nat a, Z.of_nat b) = x.
Proof. intros H. unfold cell. by rewrite getitem_nat, H. Qed.

Lemma getitem_in_bounds (m n : nat) (u : grid) (p : Z * Z) :
  has_shape m n u → in_bounds (Z.of_nat m) (Z.of_nat n) p →
  is_Some (getitem u p).
Proof.
  intros Hu [Hr Hc]. destruct p as [i j]. cbn [fst snd] in *.
  rewrite <- (Z2Nat.id i), <- (Z2Nat.id j) by lia.
  rewrite getitem_nat. eapply has_shape_entry; [done|lia..].
Qed.

(** ** One step of the stepper *)

Lemma diffusion_sum_from (u : grid) (l : list (Z * Z)) (acc : Qc) :
  (∀ p, p ∈ l → is_Some (getitem u p)) →
  foldlM (λ acc p, x ← getitem u p; Some (acc + x)%Qc) acc l
  = Some (acc + sumQc (cell u <$> l))%Qc.
Proof.
  revert acc. induction l as [|p l IH]; intros acc Hl; cbn.
  { by rewrite Qcplus_0_r. }
  destruct (Hl p) as [x Hx]; [by left|].
  unfold cell at 1. rewrite Hx. cbn.
  rewrite IH by (intros q Hq; apply Hl; by right).
  by rewrite Qcplus_assoc.
Qed.

Lemma diffusion_sum_neighbors (m n : nat) (u : grid) (i j : Z) :
  has_shape m n u →
  diffusion_sum u (get_neighbors i j (Z.of_nat m) (Z.of_nat n))
  = Some (sumQc (cell u <$> get_neighbors i j (Z.of_nat m) (Z.of_nat n))).
Proof.
  intros Hu. unfold diffusion_sum. rewrite diffusion_sum_from.
  - by rewrite Qcplus_0_l.
  - intros [ni nj] Hp. eapply getitem_in_bounds; [done|].
    rewrite get_neighbors_filter in Hp.
    by apply list_elem_of_filter in Hp as [Hp _].
Qed.

Lemma lookup_range (n k : nat) (x : Z) :
  seqZ 0 (Z.of_nat n) !! k = Some x → x = Z.of_nat k ∧ (k < n)%nat.
Proof. intros [-> ?]%lookup_seqZ. lia. Qed.

Lemma length_range (n : nat) : length (seqZ 0 (Z.of_nat n)) = n.
Proof. rewrite length_seqZ. lia. Qed.

Lemma written_next_row (m n : nat) K u k u_new :
  written m n K u k n u_new ↔ written m n K u (S k) 0 u_new.
Proof.
  unfold written. apply and_iff_compat_l.
  split; intros H a b Ha Hb; rewrite H by done;
    destruct (decide (a < k ∨ a = k ∧ b < n)%nat);
    destruct (decide (a < S k ∨ a = S k ∧ b < 0)%nat); done || lia.
Qed.

(** The body of the two loops at cell [(k, k')]. *)
Lemma update_cell_spec (m n : nat) K (u u_new : grid) (k k' : nat) :
  has_shape m n u → (k < m)%nat → (k' < n)%nat →
  written m n K u k k' u_new →
  ∃ u', (s ← diffusion_sum u
               (get_neighbors (Z.of_nat k) (Z.of_nat k')
                  (Z.of_nat m) (Z.of_nat n));
         x ← getitem u (Z.of_nat k, Z.of_nat k');
         setitem u_new (Z.of_nat k, Z.of_nat k')
           ((1 - K) * x + (K / Qc_of_Z 8) * s)%Qc) = Some u'
    ∧ written m n K u k (S k') u'.
Proof.
  intros Hu Hk Hk' [Hshape Hent].
  rewrite diffusion_sum_neighbors by done. cbn [mbind option_bind].
  rewrite getitem_nat.
  destruct (has_shape_entry m n u k k') as [x Hx]; [done..|].
  rewrite Hx. cbn [mbind option_bind].
  destruct (has_shape_row m n u_new k) as (row & Hrow & Hlen); [done..|].
  rewrite (setitem_nat _ _ _ row) by (done || lia).
  eexists. split; [done|]. split; [by apply has_shape_insert|].
  intros a b Ha Hb. rewrite entry_insert by (done || lia).
  rewrite Hent by done.
  destruct (decide (a = k ∧ b = k')) as [[-> ->]|Hne].
  - rewrite decide_True by lia. f_equal. unfold new_value.
    cbn [fst snd]. by rewrite (cell_entry _ _ _ _ Hx).
  - destruct (decide (a < k ∨ a = k ∧ b < k')%nat);
      destruct (decide (a < k ∨ a = k ∧ b < S k')%nat); done || lia.
Qed.

Lemma diffusion_step_spec (m n : nat) (K : Qc) (u : grid) :
  has_shape m n u →
  ∃ u', diffusion_step (Z.of_nat m) (Z.of_nat n) K u = Some u'
    ∧ has_shape m n u'
    ∧ ∀ a b, (a < m)%nat → (b < n)%nat →
        entry u' a b
        = Some (new_value (Z.of_nat m) (Z.of_nat n) K u
                  (Z.of_nat a, Z.of_nat b)).
Proof.
  intros Hu. unfold diffusion_step.
  apply (foldlM_invariant (λ k, written m n K u k 0)).
  - split; [done|]. intros a b _ _. by rewrite decide_False by lia.
  - intros k x u_k [-> Hk]%lookup_range Hinv.
    apply (foldlM_invariant (written m n K u k)).
    + done.
    + intros k' y u_j [-> Hk']%lookup_range Hinv'.
      by apply update_cell_spec.
    + intros u_k'. rewrite length_range. apply written_next_row.
  - intros u'. rewrite length_range. intros [Hshape Hent].
    split; [done|]. intros a b Ha Hb.
    rewrite Hent by done. by rewrite decide_True by lia.
Qed.

(** ** Finite sums of rationals *)

Section sums.
Local Open Scope Qc_scope.
Context {A : Type}.
Implicit Types (f g : A → Qc) (l k : list A).











End sums.


(** ** The cells of a grid and the neighbour relation *)



Lemma moore_sym (p q : Z * Z) : moore p q → moore q p.
Proof. unfold moore. intros (? & ? & ?). repeat split; (done || lia). Qed.

Lemma elem_of_candidates (i j : Z) (q : Z * Z) :
  q ∈ candidates i j ↔ moore (i, j) q.
Proof.
  unfold candidates, moore. destruct q as [a b]. cbn [fst snd].
  rewrite !elem_of_cons, elem_of_nil. split.
  - intros H. repeat destruct H as [H|H]; try done;
      injection H as -> ->; (split; [intros [= ? ?]; lia|lia]).
  - intros (Hne & Ha & Hb).
    assert (a = i + -1 ∨ a = i + 0 ∨ a = i + 1) as Ha' by lia.
    assert (b = j + -1 ∨ b = j + 0 ∨ b = j + 1) as Hb' by lia.
    destruct Ha' as [-> | [-> | ->]], Hb' as [-> | [-> | ->]]; try tauto.
    exfalso. apply Hne. f_equal; lia.
Qed.

Lemma elem_of_get_neighbors (M N : Z) (p q : Z * Z) :
  q ∈ get_neighbors p.1 p.2 M N ↔ moore p q ∧ in_bounds M N q.
Proof.
  rewrite get_neighbors_filter, list_elem_of_filter, elem_of_candidates.
  destruct p. cbn [fst snd]. tauto.
Qed.




(** ** Grids given by their entries *)

Lemma lookup_range_Some (n k : nat) :
  (k < n)%nat → seqZ 0 (Z.of_nat n) !! k = Some (Z.of_nat k).
Proof. intros Hk. apply lookup_seqZ. lia. Qed.

Lemma grid_eq_grid_of (m n : nat) (u : grid) (f : Z * Z → Qc) :
  has_shape m n u →
  (∀ a b, (a < m)%nat → (b < n)%nat →
     entry u a b = Some (f (Z.of_nat a, Z.of_nat b))) →
  u = grid_of (Z.of_nat m) (Z.of_nat n) f.
Proof.
  intros Hu Hent. apply list_eq. intros a. unfold grid_of.
  rewrite list_lookup_fmap.
  destruct (decide (a < m)%nat) as [Ha|Ha].
  - rewrite lookup_range_Some by done. cbn.
    destruct (has_shape_row m n u a) as (row & Hrow & Hlen); [done..|].
    rewrite Hrow. f_equal. apply list_eq. intros b.
    rewrite list_lookup_fmap.
    destruct (decide (b < n)%nat) as [Hb|Hb].
    + rewrite lookup_range_Some by done. cbn.
      specialize (Hent a b Ha Hb). unfold entry in Hent.
      by rewrite Hrow in Hent.
    + rewrite (lookup_ge_None_2 row) by lia.
      rewrite (lookup_ge_None_2 (seqZ _ _)); [done|].
      rewrite length_range. lia.
  - destruct Hu as [Hm _]. rewrite (lookup_ge_None_2 u) by lia.
    rewrite (lookup_ge_None_2 (seqZ _ _)); [done|].
    rewrite length_range. lia.
Qed.


Lemma entry_cell (m n : nat) (u : grid) (a b : nat) :
  has_shape m n u → (a < m)%nat → (b < n)%nat →
  entry u a b = Some (cell u (Z.of_nat a, Z.of_nat b)).
Proof.
  intros Hu Ha Hb. destruct (has_shape_entry m n u a b) as [x Hx]; [done..|].
  by rewrite (cell_entry _ _ _ _ Hx).
Qed.


(** The result of one step, as a grid given by its entries. *)
Lemma diffusion_step_grid_of (m n : nat) (K : Qc) (u : grid) :
  has_shape m n u →
  diffusion_step (Z.of_nat m) (Z.of_nat n) K u
  = Some (grid_of (Z.of_nat m) (Z.of_nat n)
            (new_value (Z.of_nat m) (Z.of_nat n) K u)).
Proof.
  intros Hu. destruct (diffusion_step_spec m n K u Hu) as (u' & -> & Hu' & He).
  f_equal. by apply (grid_eq_grid_of m n).
Qed.

Lemma has_shape_grid_of (m n : nat) (f : Z * Z → Qc) :
  has_shape m n (grid_of (Z.of_nat m) (Z.of_nat n) f).
Proof.
  unfold has_shape, grid_of. rewrite length_fmap, length_range.
  split; [done|]. apply Forall_fmap, Forall_forall. intros i _. cbn.
  by rewrite length_fmap, length_range.
Qed.

(** ** Mass balance of one step *)

Section balance.
Local Open Scope Qc_scope.






End balance.

Section deficit.
Local Open Scope Qc_scope.








End deficit.

(** ** The time loop *)

Lemma has_shape_step (m n : nat) (K : Qc) (u u' : grid) :
  has_shape m n u →
  diffusion_step (Z.of_nat m) (Z.of_nat n) K u = Some u' →
  has_shape m n u'.
Proof.
  intros Hu. rewrite diffusion_step_grid_of by done. intros [= <-].
  apply has_shape_grid_of.
Qed.

Lemma time_loop_body (m n : nat) (K : Qc) (u0 : grid) (k : nat)
    (u : grid) (history : list grid) :
  time_loop_inv m n K u0 k (u, history) →
  ∃ st', (u_new ← diffusion_step (Z.of_nat m) (Z.of_nat n) K u;
          Some (u_new, history ++ [u_new])) = Some st'
    ∧ time_loop_inv m n K u0 (S k) st'.
Proof.
  intros (Hu & Hlen & Hlast & Hfirst & Hchain).
  cbn [fst snd] in *.
  destruct (diffusion_step_spec m n K u Hu) as (u_new & Hstep & Hnew & _).
  rewrite Hstep. eexists. split; [done|].
  unfold time_loop_inv. cbn [fst snd]. split_and!.
  - done.
  - rewrite length_app. cbn. lia.
  - rewrite lookup_app_r by lia. by rewrite Hlen, Nat.sub_diag.
  - rewrite lookup_app_l by lia. done.
  - intros t Ht. destruct (decide (t < k)%nat) as [Hlt|Hge].
    + destruct (Hchain t Hlt) as (v & v' & Hv & Hv' & Hshape & Hvv').
      exists v, v'. by rewrite !lookup_app_l by lia.
    + assert (t = k) as -> by lia. exists u, u_new.
      rewrite lookup_app_l by lia. rewrite lookup_app_r by lia.
      by rewrite Hlen, Nat.sub_diag.
Qed.

(** [np.array] returns its argument, and does so exactly on rows of one
    length. *)
Lemma np_array_Some {A} (u0 u : list (list A)) :
  np_array u0 = Some u → u = u0 ∧ ∃ n, Forall (λ row, length row = n) u0.
Proof.
  unfold np_array. cbn zeta. case_bool_decide as H; [|done].
  intros [= <-]. split; [done|]. by eexists.
Qed.

Lemma np_array_rows {A} (n : nat) (u0 : list (list A)) :
  Forall (λ row, length row = n) u0 → np_array u0 = Some u0.
Proof.
  intros H. unfold np_array. cbn zeta. rewrite bool_decide_true; [done|].
  destruct u0 as [|row rest]; [done|]. cbn [head default].
  pose proof (Forall_inv H) as Hrow. cbn in Hrow.
  eapply Forall_impl; [done|]. intros r Hr. cbn in *. congruence.
Qed.

Lemma np_array_ragged {A} (u0 : list (list A)) :
  (∀ n, ¬ Forall (λ row, length row = n) u0) → np_array u0 = None.
Proof.
  intros H. destruct (np_array u0) as [u|] eqn:Hu; [|done].
  apply np_array_Some in Hu as [_ [n Hn]]. by destruct (H n).
Qed.

Lemma np_array_lengths {A B} (u : list (list A)) (v : list (list B)) :
  length <$> v = length <$> u → np_array u = Some u → np_array v = Some v.
Proof.
  intros Hlen [_ [n Hn]]%np_array_Some. apply (np_array_rows n).
  apply (Forall_fmap length (λ k, k = n)).
  rewrite Hlen. by apply Forall_fmap.
Qed.

Lemma simulate_diffusion_spec (m n : nat) (T : Z) (u0 : grid) (K : Qc) :
  has_shape m n u0 →
  ∃ u history,
    simulate_diffusion (Z.of_nat m) (Z.of_nat n) T u0 K = Some history
    ∧ time_loop_inv m n K u0 (Z.to_nat T) (u, history).
Proof.
  intros Hu0. unfold simulate_diffusion.
  rewrite (np_array_rows n) by apply Hu0. cbn [mbind option_bind]. cbn zeta.
  match goal with
  | |- context [foldlM ?f ?a ?l] =>
      destruct (foldlM_invariant (time_loop_inv m n K u0)
                  (time_loop_inv m n K u0 (Z.to_nat T)) f l a)
        as ([u history] & -> & Hinv)
  end.
  - unfold time_loop_inv. cbn [fst snd]. split_and!; try done.
    intros t Ht. lia.
  - intros k x [u history] _ Hinv. by apply time_loop_body.
  - intros st. by rewrite length_seqZ.
  - by exists u, history.
Qed.

(** A property of grids that holds of the initial grid and that one step
    preserves holds of every snapshot of the history. *)
Lemma time_loop_forall (m n : nat) (K : Qc) (u0 u : grid) (k : nat)
    (history : list grid) (P : grid → Prop) :
  time_loop_inv m n K u0 k (u, history) →
  P u0 →
  (∀ v v', has_shape m n v → P v →
     diffusion_step (Z.of_nat m) (Z.of_nat n) K v = Some v' → P v') →
  Forall P history.
Proof.
  intros (Hu & Hlen & Hlast & Hfirst & Hchain) H0 Hstep. cbn [fst snd] in *.
  apply Forall_lookup_2. intros t. induction t as [|t IH]; intros x Hx.
  - rewrite Hfirst in Hx. by injection Hx as <-.
  - assert (t < k)%nat as Ht by (apply lookup_lt_Some in Hx; lia).
    destruct (Hchain t Ht) as (v & v' & Hv & Hv' & Hshape & Hvv').
    rewrite Hx in Hv'. injection Hv' as <-.
    eapply Hstep; [done| |done]. by apply IH.
Qed.

(** ** The properties of the stepper *)

Ltac by_evaluation := apply (bool_decide_unpack _); vm_compute; exact I.

Lemma has_shape_peak3 : has_shape 3 3 peak3.
Proof. split; [reflexivity|]. repeat constructor. Qed.

Lemma has_shape_corner2 : has_shape 2 2 corner2.
Proof. split; [reflexivity|]. repeat constructor. Qed.

(** The neighbours of a corner and of the centre of a 3 x 3 grid, in the
    order the loops produce them. *)
Example get_neighbors_corner_3x3 :
  get_neighbors 0 0 3 3 = [(0, 1); (1, 0); (1, 1)].
Proof. reflexivity. Qed.

Example get_neighbors_centre_3x3 :
  get_neighbors 1 1 3 3
  = [(0, 0); (0, 1); (0, 2); (1, 0); (1, 2); (2, 0); (2, 1); (2, 2)].
Proof. reflexivity. Qed.

(** A grid smaller than the declared [M] x [N] makes the step raise. *)
Example diffusion_step_shape_mismatch :
  diffusion_step 3 3 1%Qc corner2 = None.
Proof. by_evaluation. Qed.

(** C2. On an [m] x [n] grid one step never raises, and the value it leaves
    at every cell [(i, j)] is [(1 - K) * x + (K / 8) * s], where [x] is the
    value the previous grid holds at [(i, j)] and [s] the sum of the values
    the previous grid holds at the in-bounds Moore neighbours of [(i, j)]:
    the divisor is 8 whatever the number of neighbours, and all the values
    read are those of the previous grid. *)
Theorem diffusion_step_update_rule (m n : nat) (K : Qc) (u : grid) :
  has_shape m n u →
  ∃ u', diffusion_step (Z.of_nat m) (Z.of_nat n) K u = Some u'
    ∧ ∀ i j, 0 ≤ i < Z.of_nat m → 0 ≤ j < Z.of_nat n →
        ∃ x vals,
          getitem u (i, j) = Some x
          ∧ mapM (getitem u) (get_neighbors i j (Z.of_nat m) (Z.of_nat n))
            = Some vals
          ∧ getitem u' (i, j)
            = Some ((1 - K) * x + (K / Qc_of_Z 8) * sumQc vals)%Qc.
Proof.
  intros Hu. destruct (diffusion_step_spec m n K u Hu) as (u' & Hstep & _ & He).
  exists u'. split; [done|]. intros i j Hi Hj.
  exists (cell u (i, j)),
    (cell u <$> get_neighbors i j (Z.of_nat m) (Z.of_nat n)).
  rewrite <- (Z2Nat.id i), <- (Z2Nat.id j) by lia. split_and!.
  - rewrite getitem_nat. apply (entry_cell m n); [done|lia..].
  - apply mapM_Some_2, Forall2_fmap_r.
    apply (Forall_Forall2_diag (λ p q, getitem u p = Some (cell u q))).
    apply Forall_forall.
    intros p Hp. destruct (getitem_in_bounds m n u p Hu) as [y Hy].
    + rewrite get_neighbors_filter in Hp.
      by apply list_elem_of_filter in Hp as [Hp _].
    + unfold cell. by rewrite Hy.
  - rewrite getitem_nat. rewrite He by lia. done.
Qed.

Lemma diffusion_step_update_rule_witness :
  has_shape 2 2 corner2
  ∧ ∃ u', diffusion_step 2 2 1%Qc corner2 = Some u'
      ∧ ∀ i j, 0 ≤ i < 2 → 0 ≤ j < 2 →
          ∃ x vals,
            getitem corner2 (i, j) = Some x
            ∧ mapM (getitem corner2) (get_neighbors i j 2 2) = Some vals
            ∧ getitem u' (i, j)
              = Some ((1 - 1) * x + (1 / Qc_of_Z 8) * sumQc vals)%Qc.
Proof.
  split; [exact has_shape_corner2|].
  exact (diffusion_step_update_rule 2 2 1%Qc corner2 has_shape_corner2).
Defined.



(** C5. For an [m] x [n] initial grid and [T >= 0], [simulate_diffusion]
    never raises and returns a history of exactly [T + 1] grids, all of
    shape [m] x [n], whose first element is [u0] and in which the element at
    each index [t + 1] is the result of one diffusion step on the element at
    index [t].  (Positive [M] and [N] are the case [m, n > 0].) *)
Theorem simulate_diffusion_history (m n : nat) (T : Z) (u0 : grid) (K : Qc) :
  has_shape m n u0 → 0 ≤ T →
  ∃ history,
    simulate_diffusion (Z.of_nat m) (Z.of_nat n) T u0 K = Some history
    ∧ Z.of_nat (length history) = T + 1
    ∧ Forall (has_shape m n) history
    ∧ history !! 0%nat = Some u0
    ∧ ∀ t, (t < Z.to_nat T)%nat →
        ∃ u u', history !! t = Some u ∧ history !! S t = Some u'
          ∧ diffusion_step (Z.of_nat m) (Z.of_nat n) K u = Some u'.
Proof.
  intros Hu0 HT.
  destruct (simulate_diffusion_spec m n T u0 K Hu0) as (u & history & -> & Hinv).
  exists history. split; [done|].
  pose proof Hinv as (_ & Hlen & _ & Hfirst & Hchain). cbn [fst snd] in *.
  split_and!.
  - rewrite Hlen. lia.
  - apply (time_loop_forall _ _ _ _ _ _ _ _ Hinv); [done|].
    intros v v' Hv _ Hstep. by eapply has_shape_step.
  - done.
  - intros t Ht. destruct (Hchain t Ht) as (v & v' & ? & ? & _ & ?).
    by exists v, v'.
Qed.

Lemma simulate_diffusion_history_witness :
  has_shape 2 2 corner2 ∧ 0 ≤ 3
  ∧ ∃ history,
      simulate_diffusion 2 2 3 corner2 (Q2Qc (1 # 2)) = Some history
      ∧ Z.of_nat (length history) = 3 + 1
      ∧ Forall (has_shape 2 2) history
      ∧ history !! 0%nat = Some corner2
      ∧ ∀ t, (t < Z.to_nat 3)%nat →
          ∃ u u', history !! t = Some u ∧ history !! S t = Some u'
            ∧ diffusion_step 2 2 (Q2Qc (1 # 2)) u = Some u'.
Proof.
  split; [exact has_shape_corner2|]. split; [lia|].
  apply (simulate_diffusion_history 2 2 3 corner2 (Q2Qc (1 # 2)));
    [exact has_shape_corner2|lia].
Defined.

(** C7. The scenario of the specification: from the 3 x 3 grid that is zero
    except for 1 at the centre, with [K = 1], one step gives 0.125 at the
    four corners and at the four edge midpoints and 0 at the centre, and the
    entries sum to 1. *)
Theorem single_peak_scenario :
  ∃ u1,
    diffusion_step 3 3 1%Qc peak3 = Some u1
    ∧ simulate_diffusion 3 3 1 peak3 1%Qc = Some [peak3; u1]
    ∧ getitem u1 (0, 0) = Some eighth ∧ getitem u1 (0, 2) = Some eighth
    ∧ getitem u1 (2, 0) = Some eighth ∧ getitem u1 (2, 2) = Some eighth
    ∧ getitem u1 (0, 1) = Some eighth ∧ getitem u1 (1, 0) = Some eighth
    ∧ getitem u1 (1, 2) = Some eighth ∧ getitem u1 (2, 1) = Some eighth
    ∧ getitem u1 (1, 1) = Some 0%Qc
    ∧ grid_sum u1 = 1%Qc.
Proof.
  exists [[eighth; eighth; eighth]; [eighth; 0; eighth];
          [eighth; eighth; eighth]]%Qc.
  split_and!; by_evaluation.
Qed.

(** ** Further properties of [get_neighbors] *)

(** X1. The result holds exactly the in-bounds Moore neighbours: a coordinate
    is listed if and only if it differs from [(i, j)], is at most one row
    and one column away from it, and lies in the grid. *)
Theorem get_neighbors_exact (i j M N a b : Z) :
  (a, b) ∈ get_neighbors i j M N
  ↔ (a, b) ≠ (i, j) ∧ (-1 ≤ a - i ≤ 1) ∧ (-1 ≤ b - j ≤ 1)
    ∧ (0 ≤ a < M) ∧ (0 ≤ b < N).
Proof.
  rewrite (elem_of_get_neighbors M N (i, j) (a, b)).
  unfold moore, in_bounds. cbn [fst snd]. split.
  - intros [(Hne & ? & ?) [? ?]]. split_and!; try lia. intros E. apply Hne. by symmetry.
  - intros (Hne & ? & ? & ? & ?). split_and!; try lia. intros E. apply Hne. by symmetry.
Qed.

(** X2. Between cells of the grid, being a neighbour is symmetric. *)
Theorem get_neighbors_symmetric (i j a b M N : Z) :
  0 ≤ i < M → 0 ≤ j < N → 0 ≤ a < M → 0 ≤ b < N →
  (a, b) ∈ get_neighbors i j M N ↔ (i, j) ∈ get_neighbors a b M N.
Proof.
  intros Hi Hj Ha Hb.
  rewrite (elem_of_get_neighbors M N (i, j) (a, b)).
  rewrite (elem_of_get_neighbors M N (a, b) (i, j)).
  unfold in_bounds. cbn [fst snd].
  split; intros [Hm _]; (split; [by apply moore_sym|done]).
Qed.

Lemma get_neighbors_symmetric_witness :
  (0 ≤ 0 < 3) ∧ (0 ≤ 1 < 3) ∧ (0 ≤ 1 < 3) ∧ (0 ≤ 2 < 3)
  ∧ ((1, 2) ∈ get_neighbors 0 1 3 3 ↔ (0, 1) ∈ get_neighbors 1 2 3 3).
Proof.
  split; [lia|]. split; [lia|]. split; [lia|]. split; [lia|].
  apply (get_neighbors_symmetric 0 1 1 2 3 3); lia.
Defined.

Lemma filter_none {A} (P : A → Prop) `{!∀ x, Decision (P x)} (l : list A) :
  (∀ x, x ∈ l → ¬ P x) → filter P l = [].
Proof.
  induction l as [|x l IH]; intros Hnone; [done|].
  rewrite filter_cons_False by (apply Hnone; by left).
  apply IH. intros y Hy. apply Hnone. by right.
Qed.

(** X3. A grid with no row or no column has no neighbours to offer, and a
    cell more than one row or one column outside the grid has none either:
    the result is the empty list. *)
Theorem get_neighbors_empty (i j M N : Z) :
  M ≤ 0 ∨ N ≤ 0 ∨ i < -1 ∨ M < i ∨ j < -1 ∨ N < j →
  get_neighbors i j M N = [].
Proof.
  intros H. rewrite get_neighbors_filter. apply filter_none.
  intros [a b] Hc%elem_of_candidates [Ha Hb].
  destruct Hc as (_ & ? & ?). cbn [fst snd] in *. lia.
Qed.

Lemma get_neighbors_empty_witness :
  (3 ≤ 0 ∨ 3 ≤ 0 ∨ 5 < -1 ∨ 3 < 5 ∨ 0 < -1 ∨ 3 < 0)
  ∧ get_neighbors 5 0 3 3 = [].
Proof.
  split; [lia|]. apply (get_neighbors_empty 5 0 3 3). lia.
Defined.

(** X4. Enlarging the grid only adds neighbours: the neighbours of a cell in
    an [M] x [N] grid are, in the same order, among its neighbours in any
    grid with at least as many rows and columns. *)
Theorem get_neighbors_monotone (i j M N M' N' : Z) :
  M ≤ M' → N ≤ N' →
  get_neighbors i j M N `sublist_of` get_neighbors i j M' N'.
Proof.
  intros HM HN. rewrite !get_neighbors_filter.
  replace (filter (in_bounds M N) (candidates i j))
    with (filter (in_bounds M N) (filter (in_bounds M' N') (candidates i j))).
  { apply sublist_filter. }
  rewrite list_filter_filter. apply list_filter_iff.
  intros [a b]. unfold in_bounds. cbn [fst snd]. lia.
Qed.

Lemma get_neighbors_monotone_witness :
  2 ≤ 3 ∧ 2 ≤ 4
  ∧ get_neighbors 1 1 2 2 `sublist_of` get_neighbors 1 1 3 4.
Proof.
  split; [lia|]. split; [lia|].
  apply (get_neighbors_monotone 1 1 2 2 3 4); lia.
Defined.

(** X5. The number of neighbours of a cell of the grid: one less than the
    number of rows among [i - 1], [i], [i + 1] that exist times the number
    of columns among [j - 1], [j], [j + 1] that exist. *)
Theorem get_neighbors_length (i j M N : Z) :
  0 ≤ i < M → 0 ≤ j < N →
  length (get_neighbors i j M N)
  = ((1 + (if bool_decide (0 < i)%Z then 1 else 0)
        + (if bool_decide (i + 1 < M)%Z then 1 else 0))
     * (1 + (if bool_decide (0 < j)%Z then 1 else 0)
          + (if bool_decide (j + 1 < N)%Z then 1 else 0)) - 1)%nat.
Proof.
  intros Hi Hj. rewrite get_neighbors_filter. unfold candidates, in_bounds.
  rewrite !filter_cons, filter_nil. cbn [fst snd].
  repeat case_bool_decide;
    repeat (first [rewrite decide_True by lia | rewrite decide_False by lia]);
    reflexivity.
Qed.

Lemma get_neighbors_length_witness :
  (0 ≤ 0 < 2) ∧ (0 ≤ 1 < 3)
  ∧ length (get_neighbors 0 1 2 3)
    = ((1 + (if bool_decide (0 < 0)%Z then 1 else 0)
          + (if bool_decide (0 + 1 < 2)%Z then 1 else 0))
       * (1 + (if bool_decide (0 < 1)%Z then 1 else 0)
            + (if bool_decide (1 + 1 < 3)%Z then 1 else 0)) - 1)%nat.
Proof.
  split; [lia|]. split; [lia|].
  apply (get_neighbors_length 0 1 2 3); lia.
Defined.

(** ** Further properties of the stepper *)

Lemma foldlM_None {A B} (f : A → B → option A) (l : list B) (a : A) (x : B) :
  x ∈ l → (∀ a, f a x = None) → foldlM f a l = None.
Proof.
  intros Hx Hf. revert a. induction l as [|y l IH]; intros a.
  { by apply elem_of_nil in Hx. }
  cbn. apply elem_of_cons in Hx as [<-|Hx].
  - by rewrite Hf.
  - destruct (f a y); [cbn; by apply IH|done].
Qed.

Lemma entry_outside (r c : nat) (u : grid) (a b : nat) :
  has_shape r c u → (r ≤ a ∨ c ≤ b)%nat → entry u a b = None.
Proof.
  intros [Hr Hc] Hout. unfold entry.
  destruct (u !! a) as [row|] eqn:Hrow; [cbn|done].
  apply lookup_ge_None_2. apply lookup_lt_Some in Hrow as Ha.
  rewrite (Forall_lookup_1 _ _ _ _ Hc Hrow). lia.
Qed.

(** X8. An array with fewer rows or fewer columns than the declared [M] and
    [N] makes the step raise, whatever it holds, and so does any simulation
    of at least one step. *)
Theorem diffusion_step_too_small (r c : nat) (M N : Z) (K : Qc) (u : grid) :
  has_shape r c u → 0 < M → 0 < N → Z.of_nat r < M ∨ Z.of_nat c < N →
  diffusion_step M N K u = None
  ∧ ∀ T, 0 < T → simulate_diffusion M N T u K = None.
Proof.
  intros Hu HM HN Hsmall.
  assert (∃ a b : nat, Z.of_nat a < M ∧ Z.of_nat b < N ∧ entry u a b = None)
    as (a & b & Ha & Hb & Hab).
  { destruct Hsmall.
    - exists r, 0%nat. split_and!; [lia..|]. apply (entry_outside r c); [done|lia].
    - exists 0%nat, c. split_and!; [lia..|]. apply (entry_outside r c); [done|lia]. }
  assert (diffusion_step M N K u = None) as Hstep.
  { unfold diffusion_step. apply (foldlM_None _ _ _ (Z.of_nat a)).
    { apply elem_of_seqZ. lia. }
    intros u_new. apply (foldlM_None _ _ _ (Z.of_nat b)).
    { apply elem_of_seqZ. lia. }
    intros u_new'. cbn zeta. rewrite getitem_nat, Hab.
    by destruct (diffusion_sum _ _). }
  split; [done|]. intros T HT. unfold simulate_diffusion.
  rewrite (np_array_rows c) by apply Hu. cbn [mbind option_bind]. cbn zeta.
  rewrite seqZ_cons by done. cbn [foldlM]. by rewrite Hstep.
Qed.

Lemma diffusion_step_too_small_witness :
  has_shape 2 2 corner2 ∧ 0 < 3 ∧ 0 < 2 ∧ (2 < 3 ∨ 2 < 2)
  ∧ diffusion_step 3 2 1%Qc corner2 = None
  ∧ ∀ T, 0 < T → simulate_diffusion 3 2 T corner2 1%Qc = None.
Proof.
  split; [exact has_shape_corner2|]. split; [lia|]. split; [lia|].
  split; [lia|].
  apply (diffusion_step_too_small 2 2 3 2 1%Qc corner2);
    [exact has_shape_corner2|lia..].
Defined.

Lemma foldlM_id {A B} (f : A → B → option A) (l : list B) (a : A) :
  (∀ x, x ∈ l → f a x = Some a) → foldlM f a l = Some a.
Proof.
  induction l as [|y l IH]; intros Hf; [done|]. cbn.
  rewrite Hf by by left. cbn. apply IH. intros x Hx. apply Hf. by right.
Qed.

(** X9. When [M] or [N] is not positive the step visits no cell: it returns
    its input unchanged, whatever the shape of the array. *)
Theorem diffusion_step_no_cells (M N : Z) (K : Qc) (u : grid) :
  M ≤ 0 ∨ N ≤ 0 → diffusion_step M N K u = Some u.
Proof.
  intros H. unfold diffusion_step. apply foldlM_id. intros i Hi.
  apply elem_of_seqZ in Hi. rewrite (seqZ_nil 0 N) by lia. done.
Qed.

Lemma diffusion_step_no_cells_witness :
  (3 ≤ 0 ∨ 0 ≤ 0) ∧ diffusion_step 3 0 1%Qc corner2 = Some corner2.
Proof.
  split; [lia|]. apply (diffusion_step_no_cells 3 0 1%Qc corner2). lia.
Defined.

Lemma diffusion_sum_block (r c m n : nat) (u : grid) (i j : Z) :
  has_shape r c u → (m ≤ r)%nat → (n ≤ c)%nat →
  diffusion_sum u (get_neighbors i j (Z.of_nat m) (Z.of_nat n))
  = Some (sumQc (cell u <$> get_neighbors i j (Z.of_nat m) (Z.of_nat n))).
Proof.
  intros Hu Hm Hn. unfold diffusion_sum. rewrite diffusion_sum_from.
  - by rewrite Qcplus_0_l.
  - intros [ni nj] Hp. apply (getitem_in_bounds r c); [done|].
    rewrite get_neighbors_filter in Hp.
    apply list_elem_of_filter in Hp as [[? ?] _].
    unfold in_bounds. cbn [fst snd] in *. lia.
Qed.

Lemma update_cell_block (r c m n : nat) K (u u_new : grid) (k k' : nat) :
  has_shape r c u → (m ≤ r)%nat → (n ≤ c)%nat → (k < m)%nat → (k' < n)%nat →
  written_block r c m n K u k k' u_new →
  ∃ u', (s ← diffusion_sum u
               (get_neighbors (Z.of_nat k) (Z.of_nat k')
                  (Z.of_nat m) (Z.of_nat n));
         x ← getitem u (Z.of_nat k, Z.of_nat k');
         setitem u_new (Z.of_nat k, Z.of_nat k')
           ((1 - K) * x + (K / Qc_of_Z 8) * s)%Qc) = Some u'
    ∧ written_block r c m n K u k (S k') u'.
Proof.
  intros Hu Hm Hn Hk Hk' [Hshape Hent].
  rewrite (diffusion_sum_block r c) by done. cbn [mbind option_bind].
  rewrite getitem_nat.
  destruct (has_shape_entry r c u k k') as [x Hx]; [done|lia..|].
  rewrite Hx. cbn [mbind option_bind].
  destruct (has_shape_row r c u_new k) as (row & Hrow & Hlen); [done|lia|].
  rewrite (setitem_nat _ _ _ row) by (done || lia).
  eexists. split; [done|]. split; [by apply has_shape_insert|].
  intros a b Ha Hb. rewrite entry_insert by (done || lia).
  rewrite Hent by done.
  destruct (decide (a = k ∧ b = k')) as [[-> ->]|Hne].
  - rewrite decide_True by lia. f_equal. unfold new_value.
    cbn [fst snd]. by rewrite (cell_entry _ _ _ _ Hx).
  - destruct (decide (b < n ∧ (a < k ∨ a = k ∧ b < k'))%nat);
      destruct (decide (b < n ∧ (a < k ∨ a = k ∧ b < S k'))%nat); done || lia.
Qed.

Lemma written_block_next_row (r c m n : nat) K u k u_new :
  written_block r c m n K u k n u_new ↔ written_block r c m n K u (S k) 0 u_new.
Proof.
  unfold written_block. apply and_iff_compat_l.
  split; intros H a b Ha Hb; rewrite H by done;
    destruct (decide (b < n ∧ (a < k ∨ a = k ∧ b < n))%nat);
    destruct (decide (b < n ∧ (a < S k ∨ a = S k ∧ b < 0))%nat); done || lia.
Qed.

(** X7. On an array with at least the declared [m] rows and [n] columns the
    step never raises and keeps the shape of the array; it rewrites the
    [m] x [n] block at the origin, each cell from the previous values of the
    cell and of its neighbours inside the block, and leaves every entry
    outside the block as it was. *)
Theorem diffusion_step_block (r c m n : nat) (K : Qc) (u : grid) :
  has_shape r c u → (m ≤ r)%nat → (n ≤ c)%nat →
  ∃ u', diffusion_step (Z.of_nat m) (Z.of_nat n) K u = Some u'
    ∧ has_shape r c u'
    ∧ ∀ a b, (a < r)%nat → (b < c)%nat →
        entry u' a b
        = if decide (a < m ∧ b < n)%nat
          then Some ((1 - K) * cell u (Z.of_nat a, Z.of_nat b)
                     + (K / Qc_of_Z 8)
                       * sumQc (cell u <$> get_neighbors (Z.of_nat a)
                                  (Z.of_nat b) (Z.of_nat m) (Z.of_nat n)))%Qc
          else entry u a b.
Proof.
  intros Hu Hm Hn. unfold diffusion_step.
  apply (foldlM_invariant (λ k, written_block r c m n K u k 0)).
  - split; [done|]. intros a b _ _. by rewrite decide_False by lia.
  - intros k x u_k [-> Hk]%lookup_range Hinv.
    apply (foldlM_invariant (written_block r c m n K u k)).
    + done.
    + intros k' y u_j [-> Hk']%lookup_range Hinv'.
      by apply update_cell_block.
    + intros u_k'. rewrite length_range. apply written_block_next_row.
  - intros u'. rewrite length_range. intros [Hshape Hent].
    split; [done|]. intros a b Ha Hb. rewrite Hent by done.
    destruct (decide (b < n ∧ (a < m ∨ a = m ∧ b < 0))%nat);
      destruct (decide (a < m ∧ b < n)%nat); done || lia.
Qed.

Lemma diffusion_step_block_witness :
  has_shape 3 3 peak3 ∧ (2 ≤ 3)%nat ∧ (2 ≤ 3)%nat
  ∧ ∃ u', diffusion_step 2 2 1%Qc peak3 = Some u'
      ∧ has_shape 3 3 u'
      ∧ ∀ a b, (a < 3)%nat → (b < 3)%nat →
          entry u' a b
          = if decide (a < 2 ∧ b < 2)%nat
            then Some ((1 - 1) * cell peak3 (Z.of_nat a, Z.of_nat b)
                       + (1 / Qc_of_Z 8)
                         * sumQc (cell peak3 <$> get_neighbors (Z.of_nat a)
                                    (Z.of_nat b) 2 2))%Qc
            else entry peak3 a b.
Proof.
  split; [exact has_shape_peak3|]. split; [lia|]. split; [lia|].
  apply (diffusion_step_block 3 3 2 2 1%Qc peak3);
    [exact has_shape_peak3|lia..].
Defined.

(** ** Further properties of the time loop *)

Lemma simulate_diffusion_unfold (M N T : Z) (u0 : grid) (K : Qc) :
  simulate_diffusion M N T u0 K
  = u ← np_array u0; snd <$> foldlM (time_step M N K) (u, [u]) (seqZ 0 T).
Proof. reflexivity. Qed.

(** A loop keeps what each iteration that does not raise keeps. *)
Lemma foldlM_preserved {A B} (P : A → Prop) (f : A → B → option A)
    (l : list B) (a a' : A) :
  (∀ a x a', P a → f a x = Some a' → P a') →
  P a → foldlM f a l = Some a' → P a'.
Proof.
  intros Hf. revert a. induction l as [|x l IH]; intros a Ha; cbn [foldlM].
  { by intros [= <-]. }
  destruct (f a x) as [a1|] eqn:Hfa; cbn [mbind option_bind]; [|done].
  apply IH. by eapply Hf.
Qed.

(** An assignment to an entry, a step and the time loop keep the lengths of
    the rows. *)
Lemma setitem_lengths (u u' : grid) (p : Z * Z) (v : Qc) :
  setitem u p v = Some u' → length <$> u' = length <$> u.
Proof.
  unfold setitem.
  destruct (np_index (length u) p.1) as [r|]; cbn [mbind option_bind]; [|done].
  destruct (u !! r) as [row|] eqn:Hrow; cbn [mbind option_bind]; [|done].
  destruct (np_index (length row) p.2) as [c|]; cbn [mbind option_bind];
    [|done].
  intros [= <-]. rewrite list_fmap_insert, length_insert.
  apply list_insert_id. by rewrite list_lookup_fmap, Hrow.
Qed.

Lemma diffusion_step_lengths (M N : Z) (K : Qc) (u u' : grid) :
  diffusion_step M N K u = Some u' → length <$> u' = length <$> u.
Proof.
  unfold diffusion_step.
  apply (foldlM_preserved (λ v : grid, length <$> v = length <$> u)); [|done].
  intros v i v' Hv.
  apply (foldlM_preserved (λ v : grid, length <$> v = length <$> u)); [|done].
  clear. intros v j v' Hv. cbn zeta.
  destruct (diffusion_sum _ _); cbn [mbind option_bind]; [|done].
  destruct (getitem _ _); cbn [mbind option_bind]; [|done].
  intros ->%setitem_lengths. done.
Qed.

Lemma time_loop_rows (M N : Z) (K : Qc) (l : list Z) u u' (h h' : list grid) :
  np_array u = Some u →
  foldlM (time_step M N K) (u, h) l = Some (u', h') →
  np_array u' = Some u'.
Proof.
  intros Hu Hloop.
  apply (foldlM_preserved (λ st : grid * list grid, np_array st.1 = Some st.1)
           (time_step M N K) l (u, h) (u', h')); [|done..].
  intros [v hv] x [v' hv'] Hv. cbn [time_step fst].
  destruct (diffusion_step M N K v) as [v1|] eqn:Hstep;
    cbn [mbind option_bind]; [|done].
  intros [= <- _]. apply (np_array_lengths v); [|done].
  by apply diffusion_step_lengths in Hstep.
Qed.

Lemma foldlM_app {A B} (f : A → B → option A) (l1 l2 : list B) (a : A) :
  foldlM f a (l1 ++ l2) = foldlM f a l1 ≫= λ a', foldlM f a' l2.
Proof.
  revert a. induction l1 as [|x l1 IH]; intros a; cbn; [done|].
  destruct (f a x); cbn; [apply IH|done].
Qed.

Lemma time_loop_length_only (M N : Z) (K : Qc) (l l' : list Z) st :
  length l = length l' →
  foldlM (time_step M N K) st l = foldlM (time_step M N K) st l'.
Proof.
  revert l' st. induction l as [|x l IH]; intros [|x' l'] st Hlen;
    try discriminate; [done|].
  cbn [foldlM]. destruct st as [u h]. cbn [time_step].
  destruct (diffusion_step M N K u); cbn [mbind option_bind]; [|done].
  apply IH. by injection Hlen.
Qed.

Lemma time_loop_prefix (M N : Z) (K : Qc) (l : list Z) u (p h : list grid) :
  foldlM (time_step M N K) (u, p ++ h) l
  = (λ st, (st.1, p ++ st.2)) <$> foldlM (time_step M N K) (u, h) l.
Proof.
  revert u h. induction l as [|x l IH]; intros u h; cbn [foldlM]; [done|].
  cbn [time_step]. destruct (diffusion_step M N K u) as [u_new|];
    cbn [mbind option_bind]; [|done].
  rewrite <- (assoc_L (++)). apply IH.
Qed.

Lemma time_loop_result (M N : Z) (K : Qc) (l : list Z) u u' (h h' : list grid) :
  foldlM (time_step M N K) (u, h) l = Some (u', h') →
  ∃ tl, h' = h ++ tl ∧ length tl = length l ∧ last (u :: tl) = Some u'.
Proof.
  revert u h. induction l as [|x l IH]; intros u h; cbn [foldlM].
  { intros [= <- <-]. exists []. by rewrite app_nil_r. }
  cbn [time_step]. destruct (diffusion_step M N K u) as [u_new|];
    cbn [mbind option_bind]; [|done].
  intros (tl & -> & Hlen & Hlast)%IH. exists (u_new :: tl).
  split_and!.
  - by rewrite <- (assoc_L (++)).
  - cbn. by rewrite Hlen.
  - done.
Qed.

(** X10. A history that [simulate_diffusion] returns starts with the initial
    grid and has one snapshot more than the number of steps, so it is never
    empty.  With [T <= 0] the function returns the one-element history of
    any rectangular array, whatever its shape, [M], [N] and [K]; on rows of
    different lengths it raises, whatever [T]. *)
Theorem simulate_diffusion_any_input (M N T : Z) (u0 : grid) (K : Qc) :
  (∀ history, simulate_diffusion M N T u0 K = Some history →
     history !! 0%nat = Some u0 ∧ length history = S (Z.to_nat T))
  ∧ (∀ r c, has_shape r c u0 → T ≤ 0 →
       simulate_diffusion M N T u0 K = Some [u0])
  ∧ ((∀ c, ¬ Forall (λ row, length row = c) u0) →
       simulate_diffusion M N T u0 K = None).
Proof.
  rewrite simulate_diffusion_unfold. split_and!.
  - intros history Hsim.
    destruct (np_array u0) as [u|] eqn:Hu0; [|done].
    apply np_array_Some in Hu0 as [-> _]. cbn [mbind option_bind] in Hsim.
    destruct (foldlM _ _ _) as [[u h]|] eqn:Hloop; [|done].
    injection Hsim as <-. cbn [snd fst].
    apply time_loop_result in Hloop as (tl & -> & Hlen & _).
    split; [done|]. cbn. by rewrite Hlen, length_seqZ.
  - intros r c [_ Hrows] HT. rewrite (np_array_rows c) by done.
    cbn [mbind option_bind]. by rewrite seqZ_nil.
  - intros Hragged. by rewrite np_array_ragged.
Qed.

Lemma simulate_diffusion_any_input_witness :
  has_shape 2 2 corner2 ∧ -1 ≤ 0
  ∧ simulate_diffusion 3 3 (-1) corner2 1%Qc = Some [corner2].
Proof.
  split; [exact has_shape_corner2|]. split; [lia|].
  apply (proj1 (proj2 (simulate_diffusion_any_input 3 3 (-1) corner2 1%Qc))
           2%nat 2%nat); [exact has_shape_corner2|lia].
Defined.

(** X11. Simulations compose: [T1 + T2] steps from [u0] give the history of
    [T1] steps from [u0] followed by the history of [T2] steps from its last
    snapshot, that snapshot listed once; and the long simulation raises
    exactly when one of the two short ones does. *)
Theorem simulate_diffusion_compose (M N T1 T2 : Z) (u0 : grid) (K : Qc) :
  0 ≤ T1 → 0 ≤ T2 →
  simulate_diffusion M N (T1 + T2) u0 K
  = h1 ← simulate_diffusion M N T1 u0 K;
    u1 ← last h1;
    h2 ← simulate_diffusion M N T2 u1 K;
    Some (h1 ++ drop 1 h2).
Proof.
  intros HT1 HT2. rewrite !simulate_diffusion_unfold.
  destruct (np_array u0) as [u|] eqn:Hu0; [|done].
  pose proof (np_array_Some _ _ Hu0) as [-> _]. cbn [mbind option_bind].
  rewrite seqZ_app, foldlM_app by done.
  destruct (foldlM _ _ (seqZ 0 T1)) as [[u1 h1]|] eqn:Hloop1; [|done].
  cbn [mbind option_bind fmap option_fmap option_map snd].
  pose proof (time_loop_rows _ _ _ _ _ _ _ _ Hu0 Hloop1) as Hu1.
  apply time_loop_result in Hloop1 as (tl1 & -> & _ & Hlast1).
  change ([u0] ++ tl1) with (u0 :: tl1). rewrite Hlast1.
  cbn [mbind option_bind]. rewrite simulate_diffusion_unfold, Hu1.
  cbn [mbind option_bind].
  apply last_Some in Hlast1 as [p Hp]. rewrite Hp.
  rewrite (time_loop_length_only M N K (seqZ (0 + T1) T2) (seqZ 0 T2))
    by by rewrite !length_seqZ.
  rewrite (time_loop_prefix M N K _ u1 p [u1]).
  destruct (foldlM _ (u1, [u1]) _) as [[u2 h2]|] eqn:Hloop2; [|done].
  cbn [mbind option_bind fmap option_fmap option_map snd fst].
  apply time_loop_result in Hloop2 as (tl2 & -> & _ & _).
  by rewrite <- (assoc_L (++)).
Qed.

Lemma simulate_diffusion_compose_witness :
  0 ≤ 2 ∧ 0 ≤ 3
  ∧ simulate_diffusion 2 2 (2 + 3) corner2 (Q2Qc (1 # 2))
    = h1 ← simulate_diffusion 2 2 2 corner2 (Q2Qc (1 # 2));
      u1 ← last h1;
      h2 ← simulate_diffusion 2 2 3 u1 (Q2Qc (1 # 2));
      Some (h1 ++ drop 1 h2).
Proof.
  split; [lia|]. split; [lia|].
  apply (simulate_diffusion_compose 2 2 2 3 corner2 (Q2Qc (1 # 2))); lia.
Defined.

(** ** Properties of the stepper in binary64 arithmetic *)

(** *** Arrays and the binary64 step *)

Section arrays.
Context {A : Type}.
Implicit Types (u : list (list A)) (row : list A).

Lemma f64_getitem_nat u (a b : nat) :
  F64.getitem u (Z.of_nat a, Z.of_nat b) = F64.entry u a b.
Proof.
  unfold F64.getitem, F64.entry. cbn [fst snd].
  destruct (decide (a < length u)%nat) as [Ha|Ha].
  - rewrite np_index_nat by done. cbn.
    destruct (u !! a) as [row|]; [cbn|done].
    destruct (decide (b < length row)%nat) as [Hb|Hb].
    + by rewrite np_index_nat.
    + rewrite np_index_ge by lia. cbn. symmetry. apply lookup_ge_None. lia.
  - rewrite np_index_ge by lia.
    rewrite (lookup_ge_None_2 u a) by lia. done.
Qed.

Lemma f64_setitem_nat u (a b : nat) row (v : A) :
  u !! a = Some row → (b < length row)%nat →
  F64.setitem u (Z.of_nat a, Z.of_nat b) v = Some (<[a := <[b := v]> row]> u).
Proof.
  intros Ha Hb. unfold F64.setitem. cbn [fst snd].
  rewrite np_index_nat by by eapply lookup_lt_Some.
  cbn. rewrite Ha. cbn. by rewrite np_index_nat.
Qed.

Lemma f64_entry_insert u (a b a' b' : nat) row (v : A) :
  u !! a = Some row → (b < length row)%nat →
  F64.entry (<[a := <[b := v]> row]> u) a' b'
  = if decide (a' = a ∧ b' = b) then Some v else F64.entry u a' b'.
Proof.
  intros Ha Hb. unfold F64.entry.
  assert (a < length u)%nat by by eapply lookup_lt_Some.
  destruct (decide (a' = a)) as [->|Hne].
  - rewrite list_lookup_insert_eq by done. cbn. rewrite Ha. cbn.
    destruct (decide (b' = b)) as [->|Hneb].
    + rewrite decide_True by done. by rewrite list_lookup_insert_eq.
    + rewrite decide_False by tauto. by rewrite list_lookup_insert_ne.
  - rewrite decide_False by tauto. by rewrite list_lookup_insert_ne.
Qed.

Lemma f64_has_shape_insert (m n : nat) u (a b : nat) row v :
  F64.has_shape m n u → u !! a = Some row →
  F64.has_shape m n (<[a := <[b := v]> row]> u).
Proof.
  intros [Hm Hn] Ha. split; [by rewrite length_insert|].
  apply Forall_insert; [done|]. rewrite length_insert.
  by eapply (Forall_lookup_1 _ _ _ _ Hn).
Qed.

Lemma f64_has_shape_row (m n : nat) u (a : nat) :
  F64.has_shape m n u → (a < m)%nat →
  ∃ row, u !! a = Some row ∧ length row = n.
Proof.
  intros [Hm Hn] Ha.
  destruct (lookup_lt_is_Some_2 u a) as [row Hrow]; [lia|].
  exists row. split; [done|]. by apply (Forall_lookup_1 _ _ _ _ Hn Hrow).
Qed.

Lemma f64_has_shape_entry (m n : nat) u (a b : nat) :
  F64.has_shape m n u → (a < m)%nat → (b < n)%nat →
  is_Some (F64.entry u a b).
Proof.
  intros Hu Ha Hb. unfold F64.entry.
  destruct (f64_has_shape_row m n u a Hu Ha) as (row & -> & Hlen). cbn.
  apply lookup_lt_is_Some_2. lia.
Qed.

Lemma f64_getitem_in_bounds (m n : nat) u (p : Z * Z) :
  F64.has_shape m n u → in_bounds (Z.of_nat m) (Z.of_nat n) p →
  is_Some (F64.getitem u p).
Proof.
  intros Hu [Hr Hc]. destruct p as [i j]. cbn [fst snd] in *.
  rewrite <- (Z2Nat.id i), <- (Z2Nat.id j) by lia.
  rewrite f64_getitem_nat. eapply f64_has_shape_entry; [done|lia..].
Qed.

Lemma f64_entry_grid_of (m n : nat) (f : Z * Z → A) (a b : nat) :
  (a < m)%nat → (b < n)%nat →
  F64.entry (F64.grid_of (Z.of_nat m) (Z.of_nat n) f) a b
  = Some (f (Z.of_nat a, Z.of_nat b)).
Proof.
  intros Ha Hb. unfold F64.entry, F64.grid_of.
  rewrite list_lookup_fmap, lookup_range_Some by done. cbn.
  by rewrite list_lookup_fmap, lookup_range_Some.
Qed.

Lemma f64_has_shape_grid_of (m n : nat) (f : Z * Z → A) :
  F64.has_shape m n (F64.grid_of (Z.of_nat m) (Z.of_nat n) f).
Proof.
  unfold F64.has_shape, F64.grid_of. rewrite length_fmap, length_range.
  split; [done|]. apply Forall_fmap, Forall_forall. intros i _. cbn.
  by rewrite length_fmap, length_range.
Qed.

Lemma f64_grid_eq_grid_of (m n : nat) u (f : Z * Z → A) :
  F64.has_shape m n u →
  (∀ a b, (a < m)%nat → (b < n)%nat →
     F64.entry u a b = Some (f (Z.of_nat a, Z.of_nat b))) →
  u = F64.grid_of (Z.of_nat m) (Z.of_nat n) f.
Proof.
  intros Hu Hent. apply list_eq. intros a. unfold F64.grid_of.
  rewrite list_lookup_fmap.
  destruct (decide (a < m)%nat) as [Ha|Ha].
  - rewrite lookup_range_Some by done. cbn.
    destruct (f64_has_shape_row m n u a) as (row & Hrow & Hlen); [done..|].
    rewrite Hrow. f_equal. apply list_eq. intros b.
    rewrite list_lookup_fmap.
    destruct (decide (b < n)%nat) as [Hb|Hb].
    + rewrite lookup_range_Some by done. cbn.
      specialize (Hent a b Ha Hb). unfold F64.entry in Hent.
      by rewrite Hrow in Hent.
    + rewrite (lookup_ge_None_2 row) by lia.
      rewrite (lookup_ge_None_2 (seqZ _ _)); [done|].
      rewrite length_range. lia.
  - destruct Hu as [Hm _]. rewrite (lookup_ge_None_2 u) by lia.
    rewrite (lookup_ge_None_2 (seqZ _ _)); [done|].
    rewrite length_range. lia.
Qed.
End arrays.

Lemma f64_cell_entry (u : list (list spec_float)) (a b : nat) x :
  F64.entry u a b = Some x → F64.cell u (Z.of_nat a, Z.of_nat b) = x.
Proof. intros H. unfold F64.cell. by rewrite f64_getitem_nat, H. Qed.

Lemma f64_diffusion_sum_from (u : list (list spec_float)) l acc :
  (∀ p, p ∈ l → is_Some (F64.getitem u p)) →
  foldlM (λ acc p, x ← F64.getitem u p; Some (F64.add acc x)) acc l
  = Some (foldl F64.add acc (F64.cell u <$> l)).
Proof.
  revert acc. induction l as [|p l IH]; intros acc Hl; cbn; [done|].
  destruct (Hl p) as [x Hx]; [by left|].
  unfold F64.cell at 1. rewrite Hx. cbn.
  apply IH. intros q Hq. apply Hl. by right.
Qed.

Lemma f64_diffusion_sum_neighbors (m n : nat) u (i j : Z) :
  F64.has_shape m n u →
  F64.diffusion_sum u (get_neighbors i j (Z.of_nat m) (Z.of_nat n))
  = Some (F64.neighbor_sum (Z.of_nat m) (Z.of_nat n) u (i, j)).
Proof.
  intros Hu. unfold F64.diffusion_sum. rewrite f64_diffusion_sum_from; [done|].
  intros [ni nj] Hp. eapply f64_getitem_in_bounds; [done|].
  rewrite get_neighbors_filter in Hp.
  by apply list_elem_of_filter in Hp as [Hp _].
Qed.

Lemma f64_written_next_row (m n : nat) K u k u_new :
  F64.written m n K u k n u_new ↔ F64.written m n K u (S k) 0 u_new.
Proof.
  unfold F64.written. apply and_iff_compat_l.
  split; intros H a b Ha Hb; rewrite H by done;
    destruct (decide (a < k ∨ a = k ∧ b < n)%nat);
    destruct (decide (a < S k ∨ a = S k ∧ b < 0)%nat); done || lia.
Qed.

Lemma f64_update_cell_spec (m n : nat) K u u_new (k k' : nat) :
  F64.has_shape m n u → (k < m)%nat → (k' < n)%nat →
  F64.written m n K u k k' u_new →
  ∃ u', (s ← F64.diffusion_sum u
               (get_neighbors (Z.of_nat k) (Z.of_nat k')
                  (Z.of_nat m) (Z.of_nat n));
         x ← F64.getitem u (Z.of_nat k, Z.of_nat k');
         F64.setitem u_new (Z.of_nat k, Z.of_nat k')
           (F64.add (F64.mul (F64.sub F64.one K) x)
                    (F64.mul (F64.div K F64.eight) s))) = Some u'
    ∧ F64.written m n K u k (S k') u'.
Proof.
  intros Hu Hk Hk' [Hshape Hent].
  rewrite (f64_diffusion_sum_neighbors m n) by done. cbn [mbind option_bind].
  rewrite f64_getitem_nat.
  destruct (f64_has_shape_entry m n u k k') as [x Hx]; [done..|].
  rewrite Hx. cbn [mbind option_bind].
  destruct (f64_has_shape_row m n u_new k) as (row & Hrow & Hlen); [done..|].
  rewrite (f64_setitem_nat _ _ _ row) by (done || lia).
  eexists. split; [done|]. split; [by apply f64_has_shape_insert|].
  intros a b Ha Hb. rewrite f64_entry_insert by (done || lia).
  rewrite Hent by done.
  destruct (decide (a = k ∧ b = k')) as [[-> ->]|Hne].
  - rewrite decide_True by lia. f_equal. unfold F64.new_value.
    by rewrite (f64_cell_entry _ _ _ _ Hx).
  - destruct (decide (a < k ∨ a = k ∧ b < k')%nat);
      destruct (decide (a < k ∨ a = k ∧ b < S k')%nat); done || lia.
Qed.

(** On an [m] x [n] array the binary64 step never raises and stores at
    every cell the value of the expression of line 109 on the previous
    grid. *)
Lemma f64_diffusion_step_grid_of (m n : nat) K u :
  F64.has_shape m n u →
  F64.diffusion_step (Z.of_nat m) (Z.of_nat n) K u
  = Some (F64.grid_of (Z.of_nat m) (Z.of_nat n)
            (F64.new_value (Z.of_nat m) (Z.of_nat n) K u)).
Proof.
  intros Hu. unfold F64.diffusion_step.
  match goal with
  | |- foldlM ?f ?a ?l = _ =>
      destruct (foldlM_invariant (λ k, F64.written m n K u k 0)
                  (λ u', u' = F64.grid_of (Z.of_nat m) (Z.of_nat n)
                                (F64.new_value (Z.of_nat m) (Z.of_nat n) K u))
                  f l a)
        as (u' & -> & ->); [| | |done]
  end.
  - split; [done|]. intros a b _ _. by rewrite decide_False by lia.
  - intros k x u_k [-> Hk]%lookup_range Hinv.
    apply (foldlM_invariant (F64.written m n K u k)).
    + done.
    + intros k' y u_j [-> Hk']%lookup_range Hinv'.
      by apply f64_update_cell_spec.
    + intros u_k'. rewrite length_range. apply f64_written_next_row.
  - intros u'. rewrite length_range. intros [Hshape Hent].
    apply (f64_grid_eq_grid_of m n); [done|]. intros a b Ha Hb.
    rewrite Hent by done. by rewrite decide_True by lia.
Qed.

(** *** Binary64 arithmetic *)

Lemma digits2_pos_shift52 (m : positive) :
  Z.pos (digits2_pos (Pos.iter xO m 52)) = Z.pos (digits2_pos m) + 52.
Proof. cbn [Pos.iter digits2_pos]. lia. Qed.

Lemma shr_exact_52 (m : positive) (e : Z) :
  shr (Build_shr_record (Z.pos (Pos.iter xO m 52)) false false) e 52
  = (Build_shr_record (Z.pos m) false false, e + 52).
Proof. reflexivity. Qed.

(** Multiplying a binary64 number by 1.0 does not change it. *)
Lemma f64_mul_one_finite s m e :
  F64.valid (S754_finite s m e) →
  F64.mul F64.one (S754_finite s m e) = S754_finite s m e.
Proof.
  unfold F64.valid, valid_binary, bounded, canonical_mantissa.
  intros [Hcan Hmax]%andb_prop. apply Z.eqb_eq in Hcan.
  unfold F64.mul, F64.one, SFmul. cbn [xorb].
  change (Pos.mul 4503599627370496 m) with (Pos.iter xO m 52).
  unfold binary_round_aux, shr_fexp at 1.
  cbn [Zdigits2 shr_record_of_loc]. rewrite digits2_pos_shift52.
  replace (Z.pos (digits2_pos m) + 52 + (-52 + e))
    with (Z.pos (digits2_pos m) + e) by lia.
  rewrite Hcan. replace (e - (-52 + e)) with 52 by lia.
  rewrite shr_exact_52.
  cbn [shr_m loc_of_shr_record round_nearest_even shr_fexp shr_record_of_loc
       Zdigits2].
  unfold shr_fexp. cbn [Zdigits2 shr_record_of_loc].
  replace (-52 + e + 52) with e by lia. rewrite Hcan, Z.sub_diag.
  cbn [shr shr_m]. by rewrite Hmax.
Qed.

(** *** Signs *)

Lemma f64_not_negative_cases (x : spec_float) :
  F64.not_negative x
  ↔ match x with
    | S754_finite true _ _ | S754_infinity true => False
    | _ => True
    end.
Proof.
  unfold F64.not_negative, SFltb.
  destruct x as [[]|[]| |[] m e]; cbn; split; done.
Qed.

Lemma f64_nonneg_cases (x : spec_float) :
  F64.nonneg x
  ↔ match x with
    | S754_finite true _ _ | S754_infinity true | S754_nan => False
    | _ => True
    end.
Proof.
  unfold F64.nonneg, F64.le, SFleb.
  destruct x as [[]|[]| |[] m e]; cbn; split; done.
Qed.

Lemma f64_nonneg_not_negative (x : spec_float) :
  F64.nonneg x → F64.not_negative x.
Proof.
  rewrite f64_nonneg_cases, f64_not_negative_cases.
  by destruct x as [[]|[]| |[] m e].
Qed.

(** Rounding keeps the sign it is given. *)
Lemma binary_round_aux_not_negative (mx ex : Z) (lx : location) :
  F64.not_negative (binary_round_aux F64.prec F64.emax false mx ex lx).
Proof.
  apply f64_not_negative_cases. unfold binary_round_aux.
  destruct (shr_fexp _ _ mx ex lx) as [mrs' e'].
  destruct (shr_fexp _ _ _ e' loc_Exact) as [mrs'' e''].
  destruct (shr_m mrs''); [done| |done].
  by destruct (e'' <=? F64.emax - F64.prec).
Qed.

Lemma binary_round_not_negative (mx : positive) (ex : Z) :
  F64.not_negative (binary_round F64.prec F64.emax false mx ex).
Proof.
  unfold binary_round. destruct (shl_align _ _ _) as [mz ez].
  apply binary_round_aux_not_negative.
Qed.

Lemma f64_add_not_negative (x y : spec_float) :
  F64.not_negative x → F64.not_negative y → F64.not_negative (F64.add x y).
Proof.
  rewrite !f64_not_negative_cases.
  destruct x as [[]|[]| |[] mx ex], y as [[]|[]| |[] my ey]; try done.
  intros _ _. apply f64_not_negative_cases.
  unfold F64.add, SFadd. cbn [cond_Zopp Z.add binary_normalize].
  apply binary_round_not_negative.
Qed.

Lemma f64_mul_not_negative (x y : spec_float) :
  F64.not_negative x → F64.not_negative y → F64.not_negative (F64.mul x y).
Proof.
  rewrite !f64_not_negative_cases.
  destruct x as [[]|[]| |[] mx ex], y as [[]|[]| |[] my ey]; try done.
  intros _ _. apply f64_not_negative_cases.
  unfold F64.mul, SFmul. cbn [xorb]. apply binary_round_aux_not_negative.
Qed.

Lemma f64_div_eight_not_negative (K : spec_float) :
  F64.not_negative K → F64.not_negative (F64.div K F64.eight).
Proof.
  rewrite !f64_not_negative_cases.
  destruct K as [[]|[]| |[] m e]; try done.
  intros _. apply f64_not_negative_cases.
  unfold F64.div, F64.eight, SFdiv. cbn [xorb].
  destruct (SFdiv_core_binary _ _ _ _ _ _) as [[mz ez] lz].
  apply binary_round_aux_not_negative.
Qed.

Lemma pos_lt_pow2_digits (m : positive) :
  Z.pos m < 2 ^ Z.pos (digits2_pos m).
Proof.
  induction m as [m IH|m IH|]; cbn [digits2_pos].
  - rewrite Pos2Z.inj_succ, Z.pow_succ_r by lia. lia.
  - rewrite Pos2Z.inj_succ, Z.pow_succ_r by lia. lia.
  - done.
Qed.

Lemma pos_iter_xO_double (x d : positive) :
  2 * Z.pos x ≤ Z.pos (Pos.iter xO x d).
Proof.
  induction d as [|d IH] using Pos.peano_ind; [cbn; lia|].
  rewrite Pos.iter_succ. lia.
Qed.

Lemma f64_valid_mantissa s m e :
  F64.valid (S754_finite s m e) → Z.pos m < 2 ^ 53.
Proof.
  unfold F64.valid, valid_binary, bounded, canonical_mantissa.
  intros [Hcan _]%andb_prop. apply Z.eqb_eq in Hcan.
  unfold fexp, F64.prec, F64.emax in Hcan.
  assert (Z.pos (digits2_pos m) ≤ 53) as Hd by lia.
  eapply Z.lt_le_trans; [apply pos_lt_pow2_digits|].
  by apply Z.pow_le_mono_r.
Qed.

(** [1 - K] is not negative for a binary64 [K] with [0 <= K <= 1]. *)
Lemma f64_one_minus_not_negative (K : spec_float) :
  F64.valid K → F64.nonneg K → F64.le K F64.one →
  F64.not_negative (F64.sub F64.one K).
Proof.
  intros Hvalid Hpos Hle. apply f64_nonneg_cases in Hpos.
  destruct K as [sK|[]| |[] m e]; try done.
  pose proof (f64_valid_mantissa _ _ _ Hvalid) as Hm. clear Hvalid.
  change (2 ^ 53) with 9007199254740992 in Hm.
  unfold F64.le, SFleb, SFcompare, F64.one in Hle.
  unfold F64.sub, F64.one, SFsub. cbn [cond_Zopp].
  destruct (Z.compare_spec e (-52)) as [->|Hlt|Hgt]; [| |done].
  - rewrite Z.min_id. unfold shl_align. rewrite Z.sub_diag. cbn [fst].
    rewrite Pos.compare_cont_spec in Hle. cbn [Pos.switch_Eq] in Hle.
    assert (Z.pos m ≤ 4503599627370496) as Hm'.
    { apply Pos2Z.pos_le_pos. unfold Pos.le.
      by destruct (m ?= 4503599627370496)%positive. }
    clear Hle.
    destruct (Z.pos 4503599627370496 - Z.pos m) as [|d|d] eqn:Hd;
      [reflexivity|apply binary_round_not_negative|lia].
  - clear Hle. rewrite Z.min_r by lia. unfold shl_align.
    rewrite Z.sub_diag. cbn [fst].
    destruct (e - -52) as [|d|d] eqn:Hd; [lia..|]. cbn [fst].
    pose proof (pos_iter_xO_double 4503599627370496%positive d) as Hbig.
    destruct (Z.pos (Pos.iter xO 4503599627370496%positive d) - Z.pos m)
      as [|r|r] eqn:Hr; [reflexivity|apply binary_round_not_negative|lia].
Qed.

(** *** The binary64 time loop *)

Lemma f64_has_shape_step (m n : nat) K u u' :
  F64.has_shape m n u →
  F64.diffusion_step (Z.of_nat m) (Z.of_nat n) K u = Some u' →
  F64.has_shape m n u'.
Proof.
  intros Hu. rewrite f64_diffusion_step_grid_of by done. intros [= <-].
  apply f64_has_shape_grid_of.
Qed.

Lemma f64_time_loop_body (m n : nat) K u0 (k : nat) u history :
  F64.time_loop_inv m n K u0 k (u, history) →
  ∃ st', (u_new ← F64.diffusion_step (Z.of_nat m) (Z.of_nat n) K u;
          Some (u_new, history ++ [u_new])) = Some st'
    ∧ F64.time_loop_inv m n K u0 (S k) st'.
Proof.
  intros (Hu & Hlen & Hlast & Hfirst & Hchain). cbn [fst snd] in *.
  pose proof (f64_diffusion_step_grid_of m n K u Hu) as Hstep.
  rewrite Hstep. eexists. split; [done|].
  unfold F64.time_loop_inv. cbn [fst snd]. split_and!.
  - apply f64_has_shape_grid_of.
  - rewrite length_app. cbn. lia.
  - rewrite lookup_app_r by lia. by rewrite Hlen, Nat.sub_diag.
  - rewrite lookup_app_l by lia. done.
  - intros t Ht. destruct (decide (t < k)%nat) as [Hlt|Hge].
    + destruct (Hchain t Hlt) as (v & v' & Hv & Hv' & Hshape & Hvv').
      exists v, v'. by rewrite !lookup_app_l by lia.
    + assert (t = k) as -> by lia. eexists u, _.
      rewrite lookup_app_l by lia. rewrite lookup_app_r by lia.
      by rewrite Hlen, Nat.sub_diag.
Qed.

Lemma f64_simulate_diffusion_spec (m n : nat) (T : Z) u0 K :
  F64.has_shape m n u0 →
  ∃ u history,
    F64.simulate_diffusion (Z.of_nat m) (Z.of_nat n) T u0 K = Some history
    ∧ F64.time_loop_inv m n K u0 (Z.to_nat T) (u, history).
Proof.
  intros Hu0. unfold F64.simulate_diffusion.
  rewrite (np_array_rows n) by apply Hu0. cbn [mbind option_bind]. cbn zeta.
  match goal with
  | |- context [foldlM ?f ?a ?l] =>
      destruct (foldlM_invariant (F64.time_loop_inv m n K u0)
                  (F64.time_loop_inv m n K u0 (Z.to_nat T)) f l a)
        as ([u history] & -> & Hinv)
  end.
  - unfold F64.time_loop_inv. cbn [fst snd]. split_and!; try done.
    intros t Ht. lia.
  - intros k x [u history] _ Hinv. by apply f64_time_loop_body.
  - intros st. by rewrite length_seqZ.
  - by exists u, history.
Qed.

Lemma f64_time_loop_forall (m n : nat) K u0 u (k : nat) history
    (P : list (list spec_float) → Prop) :
  F64.time_loop_inv m n K u0 k (u, history) →
  P u0 →
  (∀ v v', F64.has_shape m n v → P v →
     F64.diffusion_step (Z.of_nat m) (Z.of_nat n) K v = Some v' → P v') →
  Forall P history.
Proof.
  intros (Hu & Hlen & Hlast & Hfirst & Hchain) H0 Hstep. cbn [fst snd] in *.
  apply Forall_lookup_2. intros t. induction t as [|t IH]; intros x Hx.
  - rewrite Hfirst in Hx. by injection Hx as <-.
  - assert (t < k)%nat as Ht by (apply lookup_lt_Some in Hx; lia).
    destruct (Hchain t Ht) as (v & v' & Hv & Hv' & Hshape & Hvv').
    rewrite Hx in Hv'. injection Hv' as <-.
    eapply Hstep; [done| |done]. by apply IH.
Qed.

(** *** Entries that are never negative *)

Lemma f64_cell_forall (P : spec_float → Prop) u (p : Z * Z) :
  P S754_nan → Forall (Forall P) u → P (F64.cell u p).
Proof.
  intros Hnan Hu. unfold F64.cell, F64.getitem.
  destruct (np_index (length u) p.1) as [r|]; [cbn|done].
  destruct (u !! r) as [row|] eqn:Hrow; [cbn|done].
  destruct (np_index (length row) p.2) as [c|]; [cbn|done].
  destruct (row !! c) as [x|] eqn:Hx; [cbn|done].
  eapply Forall_lookup_1 in Hu; [|done]. by eapply Forall_lookup_1 in Hu.
Qed.

Lemma f64_foldl_add_not_negative (l : list spec_float) (acc : spec_float) :
  F64.not_negative acc → Forall F64.not_negative l →
  F64.not_negative (foldl F64.add acc l).
Proof.
  revert acc. induction l as [|x l IH]; intros acc Hacc Hl; [done|].
  apply Forall_cons in Hl as [Hx Hl]. cbn. apply IH; [|done].
  by apply f64_add_not_negative.
Qed.

Lemma f64_new_value_not_negative (M N : Z) K u (p : Z * Z) :
  F64.valid K → F64.nonneg K → F64.le K F64.one →
  Forall (Forall F64.not_negative) u →
  F64.not_negative (F64.new_value M N K u p).
Proof.
  intros HK HK0 HK1 Hu. unfold F64.new_value.
  apply f64_add_not_negative; apply f64_mul_not_negative.
  - by apply f64_one_minus_not_negative.
  - by apply f64_cell_forall.
  - by apply f64_div_eight_not_negative, f64_nonneg_not_negative.
  - apply f64_foldl_add_not_negative; [done|].
    apply Forall_fmap, Forall_forall. intros q _. cbn.
    by apply f64_cell_forall.
Qed.

Lemma f64_step_not_negative (m n : nat) K u u' :
  F64.valid K → F64.nonneg K → F64.le K F64.one →
  F64.has_shape m n u → Forall (Forall F64.not_negative) u →
  F64.diffusion_step (Z.of_nat m) (Z.of_nat n) K u = Some u' →
  Forall (Forall F64.not_negative) u'.
Proof.
  intros HK HK0 HK1 Hu Hnn. rewrite f64_diffusion_step_grid_of by done.
  intros [= <-]. unfold F64.grid_of.
  apply Forall_fmap, Forall_forall. intros i _. cbn.
  apply Forall_fmap, Forall_forall. intros j _. cbn.
  by apply f64_new_value_not_negative.
Qed.

(** *** Non-negative results *)

Lemma iter_pos_invariant {A} (P : A → Prop) (f : A → A) (n : positive) (x : A) :
  (∀ y, P y → P (f y)) → P x → P (SpecFloat.iter_pos f n x).
Proof.
  intros Hf. revert x. induction n as [n IH|n IH|]; intros x Hx; cbn.
  - by apply IH, IH, Hf.
  - by apply IH, IH.
  - by apply Hf.
Qed.

Lemma shr_1_nonneg (mrs : shr_record) : 0 ≤ shr_m mrs → 0 ≤ shr_m (shr_1 mrs).
Proof. destruct mrs as [[|[p|p|]|p] r s]; cbn; lia. Qed.

Lemma shr_fexp_nonneg (mx ex : Z) (lx : location) :
  0 ≤ mx → 0 ≤ shr_m (shr_fexp F64.prec F64.emax mx ex lx).1.
Proof.
  intros Hmx. unfold shr_fexp, shr.
  assert (0 ≤ shr_m (shr_record_of_loc mx lx)) as H0.
  { by destruct lx as [|[]]. }
  destruct (_ - ex) as [|n|n]; cbn [fst]; [done| |done].
  apply (iter_pos_invariant (λ mrs, 0 ≤ shr_m mrs)); [|done].
  apply shr_1_nonneg.
Qed.

Lemma round_nearest_even_nonneg (mx : Z) (lx : location) :
  0 ≤ mx → 0 ≤ round_nearest_even mx lx.
Proof.
  intros Hmx. destruct lx as [|[]]; cbn; [done| |done|lia].
  destruct (Z.even mx); lia.
Qed.

Lemma binary_round_aux_nonneg (mx ex : Z) (lx : location) :
  0 ≤ mx → F64.nonneg (binary_round_aux F64.prec F64.emax false mx ex lx).
Proof.
  intros Hmx. apply f64_nonneg_cases. unfold binary_round_aux.
  pose proof (shr_fexp_nonneg mx ex lx Hmx) as H1.
  destruct (shr_fexp _ _ mx ex lx) as [mrs' e']. cbn [fst] in H1.
  pose proof (shr_fexp_nonneg _ e' loc_Exact
                (round_nearest_even_nonneg _ (loc_of_shr_record mrs') H1)) as H2.
  destruct (shr_fexp _ _ _ e' loc_Exact) as [mrs'' e'']. cbn [fst] in H2.
  destruct (shr_m mrs''); [done| |lia].
  by destruct (e'' <=? F64.emax - F64.prec).
Qed.

Lemma binary_round_nonneg (mx : positive) (ex : Z) :
  F64.nonneg (binary_round F64.prec F64.emax false mx ex).
Proof.
  unfold binary_round. destruct (shl_align _ _ _) as [mz ez].
  by apply binary_round_aux_nonneg.
Qed.

Lemma f64_add_nonneg (x y : spec_float) :
  F64.nonneg x → F64.nonneg y → F64.nonneg (F64.add x y).
Proof.
  rewrite !f64_nonneg_cases.
  destruct x as [[]|[]| |[] mx ex], y as [[]|[]| |[] my ey]; try done.
  intros _ _. apply f64_nonneg_cases.
  unfold F64.add, SFadd. cbn [cond_Zopp Z.add binary_normalize].
  apply binary_round_nonneg.
Qed.

(** A product of non-negative factors is non-negative, unless it is the
    NaN of a zero times an infinity. *)
Lemma f64_mul_nonneg (x y : spec_float) :
  F64.nonneg x → F64.nonneg y →
  (F64.zero_times_inf x y ∧ F64.mul x y = S754_nan)
  ∨ (¬ F64.zero_times_inf x y ∧ F64.nonneg (F64.mul x y)).
Proof.
  rewrite !f64_nonneg_cases.
  destruct x as [[]|[]| |[] mx ex], y as [[]|[]| |[] my ey]; try done;
    intros _ _; try (by left); try (by right; split; [intros []|]).
  right. split; [intros []|]. apply (proj1 (f64_nonneg_cases _)).
  unfold F64.mul, SFmul. cbn [xorb]. by apply binary_round_aux_nonneg.
Qed.

Lemma f64_div_eight_nonneg (K : spec_float) :
  F64.nonneg K → F64.nonneg (F64.div K F64.eight).
Proof.
  rewrite f64_nonneg_cases.
  destruct K as [[]|[]| |[] m e]; try done.
  intros _. unfold F64.div, F64.eight, SFdiv. cbn [xorb].
  unfold SFdiv_core_binary.
  match goal with
  | |- context [Z.div_eucl ?a ?b] =>
      assert (0 ≤ a) as Ha; [|assert (0 ≤ a / b) as Hq;
        [apply Z.div_pos; [done|lia]|];
        unfold Z.div in Hq; destruct (Z.div_eucl a b) as [q r]]
  end.
  - destruct (_ - _ - _) as [|p|p]; [lia| |lia].
    apply Z.shiftl_nonneg. lia.
  - cbn [fst] in Hq. by apply binary_round_aux_nonneg.
Qed.

Lemma f64_one_minus_nonneg (K : spec_float) :
  F64.valid K → F64.nonneg K → F64.le K F64.one →
  F64.nonneg (F64.sub F64.one K).
Proof.
  intros Hvalid Hpos Hle. apply f64_nonneg_cases in Hpos.
  destruct K as [sK|[]| |[] m e]; try done.
  pose proof (f64_valid_mantissa _ _ _ Hvalid) as Hm. clear Hvalid.
  change (2 ^ 53) with 9007199254740992 in Hm.
  unfold F64.le, SFleb, SFcompare, F64.one in Hle.
  unfold F64.sub, F64.one, SFsub. cbn [cond_Zopp].
  destruct (Z.compare_spec e (-52)) as [->|Hlt|Hgt]; [| |done].
  - rewrite Z.min_id. unfold shl_align. rewrite Z.sub_diag. cbn [fst].
    rewrite Pos.compare_cont_spec in Hle. cbn [Pos.switch_Eq] in Hle.
    assert (Z.pos m ≤ 4503599627370496) as Hm'.
    { apply Pos2Z.pos_le_pos. unfold Pos.le.
      by destruct (m ?= 4503599627370496)%positive. }
    clear Hle.
    destruct (Z.pos 4503599627370496 - Z.pos m) as [|d|d] eqn:Hd;
      [reflexivity|apply binary_round_nonneg|lia].
  - clear Hle. rewrite Z.min_r by lia. unfold shl_align.
    rewrite Z.sub_diag. cbn [fst].
    destruct (e - -52) as [|d|d] eqn:Hd; [lia..|]. cbn [fst].
    pose proof (pos_iter_xO_double 4503599627370496%positive d) as Hbig.
    destruct (Z.pos (Pos.iter xO 4503599627370496%positive d) - Z.pos m)
      as [|r|r] eqn:Hr; [reflexivity|apply binary_round_nonneg|lia].
Qed.

Lemma f64_foldl_add_nonneg (l : list spec_float) (acc : spec_float) :
  F64.nonneg acc → Forall F64.nonneg l → F64.nonneg (foldl F64.add acc l).
Proof.
  revert acc. induction l as [|x l IH]; intros acc Hacc Hl; [done|].
  apply Forall_cons in Hl as [Hx Hl]. cbn. apply IH; [|done].
  by apply f64_add_nonneg.
Qed.

(** *** Grids compared cell by cell *)

Lemma f64_entry_cell (m n : nat) u (a b : nat) :
  F64.has_shape m n u → (a < m)%nat → (b < n)%nat →
  F64.entry u a b = Some (F64.cell u (Z.of_nat a, Z.of_nat b)).
Proof.
  intros Hu Ha Hb.
  destruct (f64_has_shape_entry m n u a b) as [x Hx]; [done..|].
  by rewrite (f64_cell_entry _ _ _ _ Hx).
Qed.

Lemma f64_grid_of_cell (m n : nat) u :
  F64.has_shape m n u →
  u = F64.grid_of (Z.of_nat m) (Z.of_nat n) (F64.cell u).
Proof.
  intros Hu. apply (f64_grid_eq_grid_of m n); [done|].
  intros a b. by apply f64_entry_cell.
Qed.

Lemma f64_cell_grid_of (m n : nat) (f : Z * Z → spec_float) (p : Z * Z) :
  in_bounds (Z.of_nat m) (Z.of_nat n) p →
  F64.cell (F64.grid_of (Z.of_nat m) (Z.of_nat n) f) p = f p.
Proof.
  intros [Hi Hj]. destruct p as [i j]. cbn [fst snd] in *.
  rewrite <- (Z2Nat.id i), <- (Z2Nat.id j) by lia.
  apply f64_cell_entry, f64_entry_grid_of; lia.
Qed.

Lemma f64_grid_of_Forall2 {A B} (R : A → B → Prop) (M N : Z)
    (f : Z * Z → A) (g : Z * Z → B) :
  (∀ p, in_bounds M N p → R (f p) (g p)) →
  Forall2 (Forall2 R) (F64.grid_of M N f) (F64.grid_of M N g).
Proof.
  intros H. unfold F64.grid_of.
  apply Forall2_fmap, Forall_Forall2_diag, Forall_forall.
  intros i Hi%elem_of_seqZ. cbn.
  apply Forall2_fmap, Forall_Forall2_diag, Forall_forall.
  intros j Hj%elem_of_seqZ. cbn. apply H. unfold in_bounds. cbn. lia.
Qed.

Lemma f64_getitem_forall (P : spec_float → Prop) u (p : Z * Z) x :
  F64.getitem u p = Some x → Forall (Forall P) u → P x.
Proof.
  unfold F64.getitem. intros Hget Hu.
  destruct (np_index (length u) p.1) as [r|]; [cbn in Hget|done].
  destruct (u !! r) as [row|] eqn:Hrow; [cbn in Hget|done].
  destruct (np_index (length row) p.2) as [c|]; [cbn in Hget|done].
  eapply Forall_lookup_1 in Hu; [|done]. by eapply Forall_lookup_1 in Hu.
Qed.

Lemma f64_cell_in_bounds (P : spec_float → Prop) (m n : nat) u (p : Z * Z) :
  F64.has_shape m n u → in_bounds (Z.of_nat m) (Z.of_nat n) p →
  Forall (Forall P) u → P (F64.cell u p).
Proof.
  intros Hu Hp HP. destruct (f64_getitem_in_bounds m n u p Hu Hp) as [x Hx].
  unfold F64.cell. rewrite Hx. by eapply f64_getitem_forall.
Qed.

Lemma f64_neighbor_in_bounds (M N : Z) (p q : Z * Z) :
  q ∈ get_neighbors p.1 p.2 M N → in_bounds M N q.
Proof.
  rewrite get_neighbors_filter. by intros [Hq _]%list_elem_of_filter.
Qed.

(** *** K = 0 *)

Lemma f64_same_refl (x : spec_float) : F64.same x x.
Proof. by left. Qed.

Lemma f64_same_trans (x y z : spec_float) :
  F64.same x y → F64.same y z → F64.same x z.
Proof.
  intros [Hxy|(s & t & Hx & Hy)] [Hyz|(s' & t' & Hy' & Hz)]; subst.
  - by left.
  - right. eauto.
  - right. eauto.
  - right. eauto.
Qed.

Lemma f64_same_finite (x y : spec_float) :
  F64.same x y → F64.finite y → F64.finite x.
Proof. by intros [->|(s & t & -> & ->)]. Qed.

Lemma f64_same_valid (x y : spec_float) :
  F64.same x y → F64.valid y → F64.valid x.
Proof. by intros [->|(s & t & -> & ->)]. Qed.

Lemma f64_same_feq (x y : spec_float) :
  F64.same x y → F64.finite y → F64.feq x y.
Proof.
  intros [->|(s & t & -> & ->)]; [|done].
  unfold F64.feq, SFeqb, SFcompare.
  destruct y as [?|?| |s m e]; try done. intros _.
  rewrite Z.compare_refl, Pos.compare_cont_refl. by destruct s.
Qed.

Lemma f64_add_same (x x' y y' : spec_float) :
  F64.same x x' → F64.same y y' → F64.same (F64.add x y) (F64.add x' y').
Proof.
  intros [->|(s & t & -> & ->)] [->|(s' & t' & -> & ->)].
  - by left.
  - destruct x' as [[]|?| |? m e]; destruct s', t'; cbn;
      (by left) || (right; eauto).
  - destruct y' as [[]|?| |? m e]; destruct s, t; cbn;
      (by left) || (right; eauto).
  - destruct s, t, s', t'; cbn; (by left) || (right; eauto).
Qed.

Lemma f64_foldl_add_same (l l' : list spec_float) (acc acc' : spec_float) :
  F64.same acc acc' → Forall2 F64.same l l' →
  F64.same (foldl F64.add acc l) (foldl F64.add acc' l').
Proof.
  intros Hacc Hl. revert acc acc' Hacc.
  induction Hl as [|x x' l l' Hx Hl IH]; intros acc acc' Hacc; [done|].
  cbn. apply IH. by apply f64_add_same.
Qed.

Lemma f64_mul_one (x : spec_float) :
  F64.valid x → F64.finite x → F64.mul F64.one x = x.
Proof.
  intros Hv Hf. destruct x as [s|?| |s m e]; try done.
  by apply f64_mul_one_finite.
Qed.

(** With [K] a zero the expression of line 109 gives back the value of the
    cell, up to the sign of a zero, when the neighbour sum is finite. *)
Lemma f64_new_value_K0 (M N : Z) (sK : bool) u (p : Z * Z) :
  F64.valid (F64.cell u p) → F64.finite (F64.cell u p) →
  F64.finite (F64.neighbor_sum M N u p) →
  F64.same (F64.new_value M N (S754_zero sK) u p) (F64.cell u p).
Proof.
  intros Hv Hf Hs. unfold F64.new_value.
  change (F64.sub F64.one (S754_zero sK)) with F64.one.
  rewrite f64_mul_one by done.
  replace (F64.div (S754_zero sK) F64.eight) with (S754_zero sK)
    by by destruct sK.
  destruct (F64.neighbor_sum M N u p) as [s|?| |s m e]; try done;
    destruct (F64.cell u p) as [[]|?| |? m' e']; try done;
    destruct sK; try destruct s; cbn; (by left) || (right; eauto).
Qed.

Lemma f64_feq_zero (K : spec_float) :
  F64.feq K F64.zero → ∃ s, K = S754_zero s.
Proof. destruct K as [s|[]| |[] m e]; try done. by exists s. Qed.

Lemma f64_neighbor_sum_same (m n : nat) v u (p : Z * Z) :
  (∀ q, in_bounds (Z.of_nat m) (Z.of_nat n) q →
     F64.same (F64.cell v q) (F64.cell u q)) →
  F64.same (F64.neighbor_sum (Z.of_nat m) (Z.of_nat n) v p)
           (F64.neighbor_sum (Z.of_nat m) (Z.of_nat n) u p).
Proof.
  intros H. unfold F64.neighbor_sum, F64.fsum.
  apply f64_foldl_add_same; [apply f64_same_refl|].
  apply Forall2_fmap, Forall_Forall2_diag, Forall_forall.
  intros q Hq. apply H. by eapply f64_neighbor_in_bounds.
Qed.

(** Grids of one shape whose cells agree up to the sign of a zero. *)
Lemma f64_same_grid_feq (m n : nat) v u :
  F64.has_shape m n v → F64.has_shape m n u →
  Forall (Forall F64.finite) u →
  (∀ q, in_bounds (Z.of_nat m) (Z.of_nat n) q →
     F64.same (F64.cell v q) (F64.cell u q)) →
  Forall2 (Forall2 F64.feq) v u.
Proof.
  intros Hv Hu Hfin H.
  rewrite (f64_grid_of_cell m n v Hv), (f64_grid_of_cell m n u Hu).
  apply f64_grid_of_Forall2. intros q Hq.
  apply f64_same_feq; [by apply H|]. by apply (f64_cell_in_bounds _ m n).
Qed.

Lemma f64_step_K0 (m n : nat) (sK : bool) u v v' :
  F64.has_shape m n u →
  Forall (Forall F64.valid) u → Forall (Forall F64.finite) u →
  (∀ p, in_bounds (Z.of_nat m) (Z.of_nat n) p →
     F64.finite (F64.neighbor_sum (Z.of_nat m) (Z.of_nat n) u p)) →
  F64.has_shape m n v →
  (∀ q, in_bounds (Z.of_nat m) (Z.of_nat n) q →
     F64.same (F64.cell v q) (F64.cell u q)) →
  F64.diffusion_step (Z.of_nat m) (Z.of_nat n) (S754_zero sK) v = Some v' →
  F64.has_shape m n v'
  ∧ ∀ q, in_bounds (Z.of_nat m) (Z.of_nat n) q →
      F64.same (F64.cell v' q) (F64.cell u q).
Proof.
  intros Hu Hval Hfin Hsum Hv Hsame.
  rewrite f64_diffusion_step_grid_of by done. intros [= <-].
  split; [apply f64_has_shape_grid_of|]. intros q Hq.
  rewrite f64_cell_grid_of by done.
  eapply f64_same_trans; [|by apply Hsame].
  apply f64_new_value_K0.
  - eapply f64_same_valid; [by apply Hsame|].
    by apply (f64_cell_in_bounds _ m n).
  - eapply f64_same_finite; [by apply Hsame|].
    by apply (f64_cell_in_bounds _ m n).
  - eapply f64_same_finite; [by apply f64_neighbor_sum_same|].
    by apply Hsum.
Qed.

(** C8, as amended.  In binary64, on an [m] x [n] grid whose entries and
    neighbour sums are finite and for [K == 0], one step never raises and
    returns a grid equal to its input, entry by entry; and every snapshot of
    the history that [simulate_diffusion] returns equals the initial
    grid. *)
Theorem f64_no_diffusion_at_K0 (m n : nat) (K : spec_float)
    (u : list (list spec_float)) :
  F64.has_shape m n u →
  Forall (Forall F64.valid) u → Forall (Forall F64.finite) u →
  (∀ p, in_bounds (Z.of_nat m) (Z.of_nat n) p →
     F64.finite (F64.neighbor_sum (Z.of_nat m) (Z.of_nat n) u p)) →
  F64.feq K F64.zero →
  (∃ u', F64.diffusion_step (Z.of_nat m) (Z.of_nat n) K u = Some u'
     ∧ Forall2 (Forall2 F64.feq) u' u)
  ∧ ∀ T, ∃ history,
      F64.simulate_diffusion (Z.of_nat m) (Z.of_nat n) T u K = Some history
      ∧ Forall (λ v, Forall2 (Forall2 F64.feq) v u) history.
Proof.
  intros Hu Hval Hfin Hsum [sK ->]%f64_feq_zero.
  pose (P := λ v : list (list spec_float),
          F64.has_shape m n v
          ∧ ∀ q, in_bounds (Z.of_nat m) (Z.of_nat n) q →
              F64.same (F64.cell v q) (F64.cell u q)).
  assert (P u) as HPu by (split; [done|]; intros; apply f64_same_refl).
  assert (∀ v, P v → Forall2 (Forall2 F64.feq) v u) as Hfeq.
  { intros v [Hv Hsame]. by apply (f64_same_grid_feq m n). }
  split.
  - pose proof (f64_diffusion_step_grid_of m n (S754_zero sK) u Hu) as Hstep.
    eexists. split; [done|]. apply Hfeq.
    by apply (f64_step_K0 m n sK u u _ Hu Hval Hfin Hsum Hu (proj2 HPu)).
  - intros T.
    destruct (f64_simulate_diffusion_spec m n T u (S754_zero sK) Hu)
      as (w & history & -> & Hinv).
    exists history. split; [done|].
    eapply Forall_impl; [|exact Hfeq].
    apply (f64_time_loop_forall _ _ _ _ _ _ _ _ Hinv); [done|].
    intros v v' Hv [_ Hsame] Hstep.
    by apply (f64_step_K0 m n sK u v v' Hu Hval Hfin Hsum Hv Hsame).
Qed.

Lemma f64_no_diffusion_at_K0_witness :
  F64.has_shape 3 3 F64.peak3
  ∧ Forall (Forall F64.valid) F64.peak3
  ∧ Forall (Forall F64.finite) F64.peak3
  ∧ (∀ p, in_bounds 3 3 p → F64.finite (F64.neighbor_sum 3 3 F64.peak3 p))
  ∧ F64.feq F64.zero F64.zero
  ∧ (∃ u', F64.diffusion_step 3 3 F64.zero F64.peak3 = Some u'
       ∧ Forall2 (Forall2 F64.feq) u' F64.peak3)
  ∧ ∀ T, ∃ history,
      F64.simulate_diffusion 3 3 T F64.peak3 F64.zero = Some history
      ∧ Forall (λ v, Forall2 (Forall2 F64.feq) v F64.peak3) history.
Proof.
  assert (F64.has_shape 3 3 F64.peak3) as Hshape
    by (split; [reflexivity|repeat constructor]).
  assert (Forall (Forall F64.valid) F64.peak3) as Hvalid
    by repeat constructor.
  assert (Forall (Forall F64.finite) F64.peak3) as Hfinite
    by repeat constructor.
  assert (∀ p, in_bounds 3 3 p →
            F64.finite (F64.neighbor_sum 3 3 F64.peak3 p)) as Hsums.
  { intros [i j] [Hi Hj]. cbn in Hi, Hj.
    assert (i = 0 ∨ i = 1 ∨ i = 2) as [-> | [-> | ->]] by lia;
      assert (j = 0 ∨ j = 1 ∨ j = 2) as [-> | [-> | ->]] by lia;
      by vm_compute. }
  split; [exact Hshape|]. split; [exact Hvalid|]. split; [exact Hfinite|].
  split; [exact Hsums|]. split; [reflexivity|].
  exact (f64_no_diffusion_at_K0 3 3 F64.zero F64.peak3
           Hshape Hvalid Hfinite Hsums eq_refl).
Defined.

(** C8, as stated, fails in binary64.  With [K = 0] on the 2 x 2 grid that
    holds 2^1023 everywhere, every neighbour sum overflows to [+inf] and
    [(0 / 8) * inf] is NaN: no entry of the stepped grid equals the entry it
    replaces, although all entries of the input are finite and
    non-negative. *)
Lemma f64_no_diffusion_counterexample :
  F64.has_shape 2 2 F64.huge2
  ∧ Forall (Forall F64.valid) F64.huge2
  ∧ Forall (Forall F64.finite) F64.huge2
  ∧ Forall (Forall F64.nonneg) F64.huge2
  ∧ F64.diffusion_step 2 2 F64.zero F64.huge2
    = Some [[S754_nan; S754_nan]; [S754_nan; S754_nan]]
  ∧ ¬ Forall2 (Forall2 F64.feq)
        [[S754_nan; S754_nan]; [S754_nan; S754_nan]] F64.huge2.
Proof.
  split_and!.
  - split; [reflexivity|repeat constructor].
  - repeat constructor.
  - repeat constructor.
  - repeat constructor.
  - by vm_compute.
  - intros H. apply Forall2_cons_1 in H as [H _].
    apply Forall2_cons_1 in H as [H _]. discriminate H.
Qed.

(** *** Non-negative entries *)

Lemma f64_add_nan_r (x : spec_float) : F64.add x S754_nan = S754_nan.
Proof. by destruct x. Qed.

Lemma f64_neighbor_sum_nonneg (m n : nat) u (p : Z * Z) :
  F64.has_shape m n u → Forall (Forall F64.nonneg) u →
  F64.nonneg (F64.neighbor_sum (Z.of_nat m) (Z.of_nat n) u p).
Proof.
  intros Hu Hpos. unfold F64.neighbor_sum, F64.fsum.
  apply f64_foldl_add_nonneg; [done|].
  apply Forall_fmap, Forall_forall. intros q Hq. cbn.
  apply (f64_cell_in_bounds _ m n); [done| |done].
  by eapply f64_neighbor_in_bounds.
Qed.

(** The value of line 109 on non-negative data: NaN when one of its two
    products is a zero times an infinity, non-negative otherwise. *)
Lemma f64_new_value_nonneg (m n : nat) K u (p : Z * Z) :
  F64.has_shape m n u → Forall (Forall F64.nonneg) u →
  F64.valid K → F64.nonneg K → F64.le K F64.one →
  in_bounds (Z.of_nat m) (Z.of_nat n) p →
  (F64.nan_product (Z.of_nat m) (Z.of_nat n) K u p
   ∧ F64.new_value (Z.of_nat m) (Z.of_nat n) K u p = S754_nan)
  ∨ (¬ F64.nan_product (Z.of_nat m) (Z.of_nat n) K u p
     ∧ F64.nonneg (F64.new_value (Z.of_nat m) (Z.of_nat n) K u p)).
Proof.
  intros Hu Hpos HK HK0 HK1 Hp. unfold F64.nan_product, F64.new_value.
  destruct (f64_mul_nonneg (F64.sub F64.one K) (F64.cell u p))
    as [[Hz1 ->]|[Hz1 Hm1]].
  { by apply f64_one_minus_nonneg. }
  { by apply (f64_cell_in_bounds _ m n). }
  { left. by split; [left|]. }
  destruct (f64_mul_nonneg (F64.div K F64.eight)
              (F64.neighbor_sum (Z.of_nat m) (Z.of_nat n) u p))
    as [[Hz2 ->]|[Hz2 Hm2]].
  { by apply f64_div_eight_nonneg. }
  { by apply f64_neighbor_sum_nonneg. }
  { left. split; [by right|apply f64_add_nan_r]. }
  right. split; [by intros [?|?]|]. by apply f64_add_nonneg.
Qed.

(** C6, as amended.  In binary64, on an [m] x [n] grid with non-negative
    entries and for [0 <= K <= 1], one step never raises and no entry of the
    grid it returns is negative: the entry of a cell is NaN when [1 - K] is
    zero and the cell holds [+inf], or [K / 8] is zero and the sum of the
    neighbours is [+inf], and it is non-negative otherwise.  No entry of any
    snapshot of the history that [simulate_diffusion] returns is
    negative. *)
Theorem f64_never_negative (m n : nat) (K : spec_float)
    (u : list (list spec_float)) :
  F64.has_shape m n u → Forall (Forall F64.nonneg) u →
  F64.valid K → F64.nonneg K → F64.le K F64.one →
  (∃ u', F64.diffusion_step (Z.of_nat m) (Z.of_nat n) K u = Some u'
     ∧ Forall (Forall F64.not_negative) u'
     ∧ ∀ p, in_bounds (Z.of_nat m) (Z.of_nat n) p →
         (F64.nan_product (Z.of_nat m) (Z.of_nat n) K u p
          ∧ F64.getitem u' p = Some S754_nan)
         ∨ (¬ F64.nan_product (Z.of_nat m) (Z.of_nat n) K u p
            ∧ ∃ x, F64.getitem u' p = Some x ∧ F64.nonneg x))
  ∧ ∀ T, ∃ history,
      F64.simulate_diffusion (Z.of_nat m) (Z.of_nat n) T u K = Some history
      ∧ Forall (Forall (Forall F64.not_negative)) history.
Proof.
  intros Hu Hpos HK HK0 HK1.
  assert (Forall (Forall F64.not_negative) u) as Hnn.
  { eapply Forall_impl; [done|]. intros row Hrow.
    eapply Forall_impl; [done|]. apply f64_nonneg_not_negative. }
  split.
  - pose proof (f64_diffusion_step_grid_of m n K u Hu) as Hstep.
    eexists. split; [done|]. split.
    { by eapply (f64_step_not_negative m n K u). }
    intros p Hp.
    pose proof (f64_has_shape_grid_of m n
                  (F64.new_value (Z.of_nat m) (Z.of_nat n) K u)) as Hshape.
    destruct (f64_getitem_in_bounds m n _ p Hshape Hp) as [x Hx].
    assert (x = F64.new_value (Z.of_nat m) (Z.of_nat n) K u p) as ->.
    { pose proof (f64_cell_grid_of m n
                    (F64.new_value (Z.of_nat m) (Z.of_nat n) K u) p Hp) as Hc.
      unfold F64.cell in Hc. by rewrite Hx in Hc. }
    destruct (f64_new_value_nonneg m n K u p Hu Hpos HK HK0 HK1 Hp)
      as [[Hz Hnan]|[Hz Hge]].
    + left. split; [done|]. by rewrite Hx, Hnan.
    + right. split; [done|]. by eexists.
  - intros T.
    destruct (f64_simulate_diffusion_spec m n T u K Hu)
      as (v & history & -> & Hinv).
    exists history. split; [done|].
    apply (f64_time_loop_forall _ _ _ _ _ _ _ _ Hinv); [done|].
    intros w w' Hw Hwnn Hstep. by eapply (f64_step_not_negative m n K w).
Qed.

Lemma f64_never_negative_witness :
  F64.has_shape 3 3 F64.peak3
  ∧ Forall (Forall F64.nonneg) F64.peak3
  ∧ F64.valid F64.half ∧ F64.nonneg F64.half ∧ F64.le F64.half F64.one
  ∧ (∃ u', F64.diffusion_step 3 3 F64.half F64.peak3 = Some u'
       ∧ Forall (Forall F64.not_negative) u'
       ∧ ∀ p, in_bounds 3 3 p →
           (F64.nan_product 3 3 F64.half F64.peak3 p
            ∧ F64.getitem u' p = Some S754_nan)
           ∨ (¬ F64.nan_product 3 3 F64.half F64.peak3 p
              ∧ ∃ x, F64.getitem u' p = Some x ∧ F64.nonneg x))
  ∧ ∀ T, ∃ history,
      F64.simulate_diffusion 3 3 T F64.peak3 F64.half = Some history
      ∧ Forall (Forall (Forall F64.not_negative)) history.
Proof.
  assert (F64.has_shape 3 3 F64.peak3) as Hshape
    by (split; [reflexivity|repeat constructor]).
  assert (Forall (Forall F64.nonneg) F64.peak3) as Hpos
    by repeat constructor.
  split; [exact Hshape|]. split; [exact Hpos|].
  split; [reflexivity|]. split; [reflexivity|]. split; [reflexivity|].
  exact (f64_never_negative 3 3 F64.half F64.peak3 Hshape Hpos
           eq_refl eq_refl eq_refl).
Defined.

(** C6, as stated, fails in binary64.  On the 2 x 2 grid that holds 2^1023
    everywhere every neighbour sum overflows to [+inf].  With [K = 0] the
    product [(0 / 8) * inf] is NaN, so the stepped grid holds NaN, which is
    not non-negative, in every cell; with [K = 1] the first step yields
    [+inf] everywhere and the second, by [(1 - 1) * inf], NaN everywhere. *)
Lemma f64_nonneg_counterexample :
  F64.has_shape 2 2 F64.huge2
  ∧ Forall (Forall F64.nonneg) F64.huge2
  ∧ F64.valid F64.zero ∧ F64.nonneg F64.zero ∧ F64.le F64.zero F64.one
  ∧ F64.diffusion_step 2 2 F64.zero F64.huge2
    = Some [[S754_nan; S754_nan]; [S754_nan; S754_nan]]
  ∧ ¬ F64.nonneg S754_nan
  ∧ F64.valid F64.one ∧ F64.nonneg F64.one ∧ F64.le F64.one F64.one
  ∧ F64.simulate_diffusion 2 2 2 F64.huge2 F64.one
    = Some [F64.huge2;
            [[S754_infinity false; S754_infinity false];
             [S754_infinity false; S754_infinity false]];
            [[S754_nan; S754_nan]; [S754_nan; S754_nan]]].
Proof.
  split_and!; try reflexivity.
  - split; [reflexivity|repeat constructor].
  - repeat constructor.
  - discriminate.
Qed.

(** *** Rational values *)







(** *** The grid of values *)

Lemma f64_has_shape_reals (m n : nat) u :
  F64.has_shape m n u → has_shape m n (F64.reals u).
Proof.
  intros [Hm Hn]. unfold F64.reals. split.
  - by rewrite length_fmap.
  - apply Forall_fmap. eapply Forall_impl; [done|].
    intros row Hrow. cbn. by rewrite length_fmap.
Qed.

Lemma f64_cell_reals (m n : nat) u (p : Z * Z) :
  F64.has_shape m n u → in_bounds (Z.of_nat m) (Z.of_nat n) p →
  cell (F64.reals u) p = F64.real (F64.cell u p).
Proof.
  intros Hu [Hi Hj]. destruct p as [i j]. cbn [fst snd] in *.
  rewrite <- (Z2Nat.id i), <- (Z2Nat.id j) by lia.
  destruct (f64_has_shape_entry m n u (Z.to_nat i) (Z.to_nat j))
    as [x Hx]; [done|lia..|].
  rewrite (f64_cell_entry _ _ _ _ Hx). apply cell_entry.
  unfold F64.entry in Hx. unfold entry, F64.reals.
  rewrite list_lookup_fmap.
  destruct (u !! Z.to_nat i) as [row|]; [cbn in *|done].
  by rewrite list_lookup_fmap, Hx.
Qed.



(** *** Mass *)







(** Where the step rounds, the sum of the values can change in either
    direction although every cell that lacks a neighbour holds a zero: on
    the 3 x 3 peak with [K = 0.1] the centre becomes the rounded [1 - 0.1]
    and the sum goes from 1 to 1 + 2^-55; with the centre at 0.2 and
    [K = 0.2] the sum grows too. *)
Example f64_rounding_changes_mass :
  (∃ u', F64.diffusion_step 3 3 F64.tenth F64.peak3 = Some u'
     ∧ Forall (Forall F64.finite) u'
     ∧ F64.mass F64.peak3 = 1%Qc
     ∧ F64.mass u' = (1 + F64.pow2 (-55))%Qc)
  ∧ (∃ u', F64.diffusion_step 3 3 F64.fifth
             [[F64.zero; F64.zero; F64.zero];
              [F64.zero; F64.fifth; F64.zero];
              [F64.zero; F64.zero; F64.zero]] = Some u'
       ∧ Forall (Forall F64.finite) u'
       ∧ (F64.real F64.fifth < F64.mass u')%Qc).
Proof.
  split.
  - eexists. split; [by vm_compute|].
    split; [repeat constructor|]. split; by_evaluation.
  - eexists. split; [by vm_compute|].
    split; [repeat constructor|]. by_evaluation.
Qed.

(** *** Mass at K = 0 *)

Lemma f64_same_real (x y : spec_float) :
  F64.same x y → F64.real x = F64.real y.
Proof. by intros [-> | (s & t & -> & ->)]. Qed.

Lemma f64_same_reals (m n : nat) v u :
  F64.has_shape m n v → F64.has_shape m n u →
  (∀ q, in_bounds (Z.of_nat m) (Z.of_nat n) q →
     F64.same (F64.cell v q) (F64.cell u q)) →
  F64.reals v = F64.reals u.
Proof.
  intros Hv Hu Hsame.
  rewrite (grid_eq_grid_of m n (F64.reals u)
             (λ p, F64.real (F64.cell u p))).
  - apply (grid_eq_grid_of m n); [by apply f64_has_shape_reals|].
    intros a b Ha Hb.
    rewrite (entry_cell m n) by (done || by apply f64_has_shape_reals).
    assert (in_bounds (Z.of_nat m) (Z.of_nat n) (Z.of_nat a, Z.of_nat b))
      as Hq by (unfold in_bounds; cbn; lia).
    rewrite (f64_cell_reals m n) by done.
    f_equal. by apply f64_same_real, Hsame.
  - by apply f64_has_shape_reals.
  - intros a b Ha Hb.
    rewrite (entry_cell m n) by (done || by apply f64_has_shape_reals).
    rewrite (f64_cell_reals m n); [done..|]. unfold in_bounds. cbn. lia.
Qed.

(** X18. In binary64, with [K == 0] on an [m] x [n] grid whose entries and
    neighbour sums are finite, the sum of the values of the entries is the
    same after one step as before, and the same in every snapshot of the
    history: no rounding occurs. *)
Theorem f64_mass_conserved_at_K0 (m n : nat) (K : spec_float)
    (u : list (list spec_float)) :
  F64.has_shape m n u →
  Forall (Forall F64.valid) u → Forall (Forall F64.finite) u →
  (∀ p, in_bounds (Z.of_nat m) (Z.of_nat n) p →
     F64.finite (F64.neighbor_sum (Z.of_nat m) (Z.of_nat n) u p)) →
  F64.feq K F64.zero →
  (∃ u', F64.diffusion_step (Z.of_nat m) (Z.of_nat n) K u = Some u'
     ∧ F64.mass u' = F64.mass u)
  ∧ ∀ T, ∃ history,
      F64.simulate_diffusion (Z.of_nat m) (Z.of_nat n) T u K = Some history
      ∧ Forall (λ v, F64.mass v = F64.mass u) history.
Proof.
  intros Hu Hval Hfin Hsum [sK ->]%f64_feq_zero.
  pose (P := λ v : list (list spec_float),
          F64.has_shape m n v
          ∧ ∀ q, in_bounds (Z.of_nat m) (Z.of_nat n) q →
              F64.same (F64.cell v q) (F64.cell u q)).
  assert (P u) as HPu by (split; [done|]; intros; apply f64_same_refl).
  assert (∀ v, P v → F64.mass v = F64.mass u) as Hmass.
  { intros v [Hv Hsame]. unfold F64.mass.
    by rewrite (f64_same_reals m n v u). }
  split.
  - pose proof (f64_diffusion_step_grid_of m n (S754_zero sK) u Hu) as Hstep.
    eexists. split; [done|]. apply Hmass.
    by apply (f64_step_K0 m n sK u u _ Hu Hval Hfin Hsum Hu (proj2 HPu)).
  - intros T.
    destruct (f64_simulate_diffusion_spec m n T u (S754_zero sK) Hu)
      as (w & history & -> & Hinv).
    exists history. split; [done|].
    eapply Forall_impl; [|exact Hmass].
    apply (f64_time_loop_forall _ _ _ _ _ _ _ _ Hinv); [done|].
    intros v v' Hv [_ Hsame] Hstep.
    by apply (f64_step_K0 m n sK u v v' Hu Hval Hfin Hsum Hv Hsame).
Qed.

Lemma f64_mass_conserved_at_K0_witness :
  F64.has_shape 2 2 F64.corner2
  ∧ Forall (Forall F64.valid) F64.corner2
  ∧ Forall (Forall F64.finite) F64.corner2
  ∧ (∀ p, in_bounds 2 2 p → F64.finite (F64.neighbor_sum 2 2 F64.corner2 p))
  ∧ F64.feq F64.zero F64.zero
  ∧ (∃ u', F64.diffusion_step 2 2 F64.zero F64.corner2 = Some u'
       ∧ F64.mass u' = F64.mass F64.corner2)
  ∧ ∀ T, ∃ history,
      F64.simulate_diffusion 2 2 T F64.corner2 F64.zero = Some history
      ∧ Forall (λ v, F64.mass v = F64.mass F64.corner2) history.
Proof.
  assert (F64.has_shape 2 2 F64.corner2) as Hshape
    by (split; [reflexivity|repeat constructor]).
  assert (Forall (Forall F64.valid) F64.corner2) as Hvalid
    by repeat constructor.
  assert (Forall (Forall F64.finite) F64.corner2) as Hfinite
    by repeat constructor.
  assert (∀ p, in_bounds 2 2 p →
            F64.finite (F64.neighbor_sum 2 2 F64.corner2 p)) as Hsums.
  { intros [i j] [Hi Hj]. cbn in Hi, Hj.
    assert (i = 0 ∨ i = 1) as [-> | ->] by lia;
      assert (j = 0 ∨ j = 1) as [-> | ->] by lia;
      by vm_compute. }
  split; [exact Hshape|]. split; [exact Hvalid|]. split; [exact Hfinite|].
  split; [exact Hsums|]. split; [reflexivity|].
  exact (f64_mass_conserved_at_K0 2 2 F64.zero F64.corner2
           Hshape Hvalid Hfinite Hsums eq_refl).
Defined.

(** *** The update rule and the history in binary64 *)

(** X16. In binary64, on an [m] x [n] array one step never raises and keeps
    the shape, and the value it leaves at every cell [(i, j)] is the
    rounded sum of the rounded products [(1 - K) * x] and [(K / 8) * s],
    with [1 - K] and [K / 8] rounded, where [x] is the value the previous
    grid holds at [(i, j)] and [s] the sum of the values it holds at the
    neighbours, added one by one from 0 in the order of [get_neighbors],
    each addition rounded. *)
Theorem f64_diffusion_step_update_rule (m n : nat) (K : spec_float)
    (u : list (list spec_float)) :
  F64.has_shape m n u →
  ∃ u', F64.diffusion_step (Z.of_nat m) (Z.of_nat n) K u = Some u'
    ∧ F64.has_shape m n u'
    ∧ ∀ i j, 0 ≤ i < Z.of_nat m → 0 ≤ j < Z.of_nat n →
        ∃ x vals,
          F64.getitem u (i, j) = Some x
          ∧ mapM (F64.getitem u)
              (get_neighbors i j (Z.of_nat m) (Z.of_nat n)) = Some vals
          ∧ F64.getitem u' (i, j)
            = Some (F64.add (F64.mul (F64.sub F64.one K) x)
                      (F64.mul (F64.div K F64.eight)
                         (foldl F64.add F64.zero vals))).
Proof.
  intros Hu.
  pose proof (f64_diffusion_step_grid_of m n K u Hu) as Hstep.
  eexists. split; [done|]. split; [apply f64_has_shape_grid_of|].
  intros i j Hi Hj.
  assert (in_bounds (Z.of_nat m) (Z.of_nat n) (i, j)) as Hp by done.
  exists (F64.cell u (i, j)),
    (F64.cell u <$> get_neighbors i j (Z.of_nat m) (Z.of_nat n)).
  split_and!.
  - destruct (f64_getitem_in_bounds m n u (i, j) Hu Hp) as [x Hx].
    unfold F64.cell. by rewrite Hx.
  - apply mapM_Some_2, Forall2_fmap_r.
    apply (Forall_Forall2_diag
             (λ p q, F64.getitem u p = Some (F64.cell u q))).
    apply Forall_forall. intros q Hq.
    destruct (f64_getitem_in_bounds m n u q Hu) as [y Hy].
    + by apply (f64_neighbor_in_bounds _ _ (i, j)).
    + unfold F64.cell. by rewrite Hy.
  - pose proof (f64_has_shape_grid_of m n
                  (F64.new_value (Z.of_nat m) (Z.of_nat n) K u)) as Hshape.
    destruct (f64_getitem_in_bounds m n _ (i, j) Hshape Hp) as [y Hy].
    pose proof (f64_cell_grid_of m n
                  (F64.new_value (Z.of_nat m) (Z.of_nat n) K u) (i, j) Hp)
      as Hc.
    unfold F64.cell in Hc at 1. rewrite Hy in Hc. cbn in Hc.
    by rewrite Hy, Hc.
Qed.

Lemma f64_diffusion_step_update_rule_witness :
  F64.has_shape 3 3 F64.peak3
  ∧ ∃ u', F64.diffusion_step 3 3 F64.tenth F64.peak3 = Some u'
      ∧ F64.has_shape 3 3 u'
      ∧ ∀ i j, 0 ≤ i < 3 → 0 ≤ j < 3 →
          ∃ x vals,
            F64.getitem F64.peak3 (i, j) = Some x
            ∧ mapM (F64.getitem F64.peak3) (get_neighbors i j 3 3)
              = Some vals
            ∧ F64.getitem u' (i, j)
              = Some (F64.add (F64.mul (F64.sub F64.one F64.tenth) x)
                        (F64.mul (F64.div F64.tenth F64.eight)
                           (foldl F64.add F64.zero vals))).
Proof.
  assert (F64.has_shape 3 3 F64.peak3) as Hshape
    by (split; [reflexivity|repeat constructor]).
  split; [exact Hshape|].
  exact (f64_diffusion_step_update_rule 3 3 F64.tenth F64.peak3 Hshape).
Defined.

(** X17. In binary64, for an [m] x [n] initial array and [T >= 0],
    [simulate_diffusion] never raises, whatever the values, and returns a
    history of [T + 1] arrays of shape [m] x [n] that starts with [u0] and
    in which each snapshot after the first is one step from the snapshot
    before it. *)
Theorem f64_simulate_diffusion_history (m n : nat) (T : Z)
    (u0 : list (list spec_float)) (K : spec_float) :
  F64.has_shape m n u0 → 0 ≤ T →
  ∃ history,
    F64.simulate_diffusion (Z.of_nat m) (Z.of_nat n) T u0 K = Some history
    ∧ Z.of_nat (length history) = T + 1
    ∧ Forall (F64.has_shape m n) history
    ∧ history !! 0%nat = Some u0
    ∧ ∀ t, (t < Z.to_nat T)%nat →
        ∃ u u', history !! t = Some u ∧ history !! S t = Some u'
          ∧ F64.diffusion_step (Z.of_nat m) (Z.of_nat n) K u = Some u'.
Proof.
  intros Hu0 HT.
  destruct (f64_simulate_diffusion_spec m n T u0 K Hu0)
    as (u & history & -> & Hinv).
  exists history. split; [done|].
  pose proof Hinv as (_ & Hlen & _ & Hfirst & Hchain). cbn [fst snd] in *.
  split_and!.
  - rewrite Hlen. lia.
  - apply (f64_time_loop_forall _ _ _ _ _ _ _ _ Hinv); [done|].
    intros v v' Hv _ Hstep. by eapply f64_has_shape_step.
  - done.
  - intros t Ht. destruct (Hchain t Ht) as (v & v' & ? & ? & _ & ?).
    by exists v, v'.
Qed.

Lemma f64_simulate_diffusion_history_witness :
  F64.has_shape 2 2 F64.huge2 ∧ 0 ≤ 3
  ∧ ∃ history,
      F64.simulate_diffusion 2 2 3 F64.huge2 F64.tenth = Some history
      ∧ Z.of_nat (length history) = 3 + 1
      ∧ Forall (F64.has_shape 2 2) history
      ∧ history !! 0%nat = Some F64.huge2
      ∧ ∀ t, (t < Z.to_nat 3)%nat →
          ∃ u u', history !! t = Some u ∧ history !! S t = Some u'
            ∧ F64.diffusion_step 2 2 F64.tenth u = Some u'.
Proof.
  assert (F64.has_shape 2 2 F64.huge2) as Hshape
    by (split; [reflexivity|repeat constructor]).
  split; [exact Hshape|]. split; [lia|].
  apply (f64_simulate_diffusion_history 2 2 3 F64.huge2 F64.tenth);
    [exact Hshape|lia].
Defined.

(** The scenario of the 3 x 3 peak with [K = 1] in binary64: no operation
    rounds, the step leaves 0.125 around the centre and 0 at the centre,
    which are the values the exact stepper gives, and the entries sum
    to 1. *)
Example f64_single_peak_scenario :
  F64.diffusion_step 3 3 F64.one F64.peak3 = Some F64.peak3_next
  ∧ F64.simulate_diffusion 3 3 1 F64.peak3 F64.one
    = Some [F64.peak3; F64.peak3_next]
  ∧ diffusion_step 3 3 1%Qc peak3 = Some (F64.reals F64.peak3_next)
  ∧ F64.mass F64.peak3_next = 1%Qc.
Proof. split_and!; [reflexivity..|by_evaluation|by_evaluation]. Qed.
